(** * World Radio Map: the station service and the audio player

    A shallow embedding of [app/services/radioService.ts] (module
    [radioService]) and of the hook logic of
    [app/components/AudioPlayer.tsx] (module [AudioPlayer]), followed by
    the properties of the design document that are settled on them.

    Modelling conventions.
    - A JavaScript [number] is an exact rational or one of the three
      non-finite values; binary64 rounding is not modelled.  Truthiness
      and [isNaN] are the JavaScript ones.
    - An optional field ([geoLat?: number]) is an [option]; [None] is
      [undefined].
    - The directory service and [Math.random] are the environment: a
      function from queries to outcomes, and a sequence of draws.
    - Effects (queries issued, console output, random draws consumed,
      exceptions) are threaded through the monad [Eff]. *)

From Stdlib Require Import QArith Qround Qabs Qminmax Lia Lqa.
From stdpp Require Import gmap strings list.

(** ** JavaScript values *)

Inductive number : Type :=
  | Fin (q : Q)
  | NaN
  | PosInfinity
  | NegInfinity.

(** [!!v] for a value of type [number | undefined]. *)
Definition truthy (v : option number) : bool :=
  match v with
  | None => false
  | Some NaN => false
  | Some (Fin q) => negb (Qeq_bool q 0)
  | Some PosInfinity | Some NegInfinity => true
  end.

(** The global [isNaN]: [undefined] converts to [NaN]. *)
Definition isNaN (v : option number) : bool :=
  match v with
  | None | Some NaN => true
  | Some _ => false
  end.

(** [!!s] for a string. *)
Definition truthy_string (s : string) : bool := negb (String.eqb s "").

(** [n.toFixed(6)] read back by [parseFloat]: the nearest multiple of
    [10^-6], ties away from zero. *)
Definition toFixed6 (x : Q) : Q :=
  let n := Qfloor (Qabs x * 1000000 + (1 # 2)) in
  if Qle_bool 0 x then n # 1000000 else (- n) # 1000000.

(** The [RadioStation] interface. *)
Record RadioStation : Type := {
  id : string;
  name : string;
  url : string;
  favicon : string;
  countryCode : string;
  country : string;
  state : string;
  language : list string + string;
  codec : string;
  bitrate : number;
  votes : number;
  geoLat : option number;
  geoLong : option number
}.

(** [{ ...station, ...randomCoords }] *)
Definition with_coords (station : RadioStation) (lat long : number) : RadioStation :=
  {| id := id station; name := name station; url := url station;
     favicon := favicon station; countryCode := countryCode station;
     country := country station; state := state station;
     language := language station; codec := codec station;
     bitrate := bitrate station; votes := votes station;
     geoLat := Some lat; geoLong := Some long |}.

Module radioService.

(** *** The environment *)

(** The argument of [api.searchStations]. *)
Record Query : Type := {
  q_countryCode : option string;
  q_limit : nat;
  q_hasGeoInfo : option bool
}.

(** A promise settles with a value or with a rejection reason. *)
Inductive outcome (A : Type) : Type :=
  | Resolved (a : A)
  | Rejected (reason : string).
Arguments Resolved {A} a.
Arguments Rejected {A} reason.

(** What the program has done to the outside world so far. *)
Record Env : Type := {
  draws : nat;                       (* calls of Math.random made *)
  queries : list Query;              (* searchStations calls, oldest first *)
  console : list (string * string)   (* console.error lines, oldest first *)
}.

Definition Env0 : Env := {| draws := 0; queries := []; console := [] |}.

Inductive completion (A : Type) : Type :=
  | Normal (a : A)
  | Abrupt (error : string).
Arguments Normal {A} a.
Arguments Abrupt {A} error.

Definition Eff (A : Type) : Type := Env -> completion A * Env.

#[global] Instance Eff_ret : MRet Eff := fun A a σ => (Normal a, σ).

#[global] Instance Eff_bind : MBind Eff := fun A B f m σ =>
  match m σ with
  | (Normal a, σ') => f a σ'
  | (Abrupt e, σ') => (Abrupt e, σ')
  end.

Definition throw {A} (e : string) : Eff A := fun σ => (Abrupt e, σ).

(** [try { body } catch (error) { handler }] *)
Definition try_catch {A} (body : Eff A) (handler : string -> Eff A) : Eff A :=
  fun σ =>
    match body σ with
    | (Normal a, σ') => (Normal a, σ')
    | (Abrupt e, σ') => handler e σ'
    end.

Definition console_error (msg error : string) : Eff unit := fun σ =>
  (Normal tt,
   {| draws := draws σ; queries := queries σ;
      console := console σ ++ [(msg, error)] |}).

(** [array.map(f)] for an effectful callback, also [Promise.all] over
    promises started in array order. *)
Fixpoint forM {A B} (f : A -> Eff B) (l : list A) : Eff (list B) :=
  match l with
  | [] => mret []
  | x :: l' => y ← f x; ys ← forM f l'; mret (y :: ys)
  end.

Section Service.

(** The directory service behind [api.searchStations] and the generator
    behind [Math.random]. Within one run every query is distinct, so a
    function of the query describes the service. *)
Variable api : Query -> outcome (list RadioStation).
Variable random : nat -> Q.

Definition searchStations (q : Query) : Eff (list RadioStation) := fun σ =>
  (match api q with
   | Resolved stations => Normal stations
   | Rejected reason => Abrupt reason
   end,
   {| draws := draws σ; queries := queries σ ++ [q]; console := console σ |}).

Definition Math_random : Eff Q := fun σ =>
  (Normal (random (draws σ)),
   {| draws := S (draws σ); queries := queries σ; console := console σ |}).

Definition countryQuery (countryCode : string) (limit : nat) : Query :=
  {| q_countryCode := Some countryCode; q_limit := limit; q_hasGeoInfo := None |}.

Definition geoQuery (limit : nat) : Query :=
  {| q_countryCode := None; q_limit := limit; q_hasGeoInfo := Some true |}.

Definition getRadioStationsForCountry (countryCode : string) (limit : option nat)
  : Eff (list RadioStation) :=
  let limit := default 50 limit in
  try_catch
    (stations ← searchStations (countryQuery countryCode limit);
     mret stations)
    (fun error =>
       _ ← console_error ("Error fetching radio stations for " +:+ countryCode +:+ ":") error;
       mret []).

Record Country : Type := { country_name : string; code : string }.

Definition IMPORTANT_COUNTRIES : list Country :=
  [ {| country_name := "India"; code := "IN" |};
    {| country_name := "United States"; code := "US" |};
    {| country_name := "United Kingdom"; code := "GB" |};
    {| country_name := "Japan"; code := "JP" |};
    {| country_name := "China"; code := "CN" |};
    {| country_name := "Australia"; code := "AU" |};
    {| country_name := "Brazil"; code := "BR" |};
    {| country_name := "Russia"; code := "RU" |} ].

Record Bounds : Type := { lat : Q * Q; long : Q * Q }.

Definition COUNTRY_BOUNDARIES : gmap string Bounds :=
  list_to_map
    [ ("IN", {| lat := (8, 35); long := (68, 97) |});
      ("US", {| lat := (24, 49); long := (-125, -66) |});
      ("GB", {| lat := (49, 59); long := (-8, 2) |});
      ("JP", {| lat := (30, 46); long := (129, 146) |});
      ("CN", {| lat := (18, 54); long := (73, 135) |});
      ("AU", {| lat := (-43, -10); long := (113, 154) |});
      ("BR", {| lat := (-33, 5); long := (-74, -34) |});
      ("RU", {| lat := (41, 82); long := (19, 180) |}) ]%Q.

(** [COUNTRY_BOUNDARIES] is an object literal, so a key it does not own
    is still looked up on [Object.prototype]; every member found there
    is truthy and has no [lat]. *)
Definition Object_prototype : list string :=
  [ "constructor"; "__proto__"; "hasOwnProperty"; "isPrototypeOf";
    "propertyIsEnumerable"; "toLocaleString"; "toString"; "valueOf";
    "__defineGetter__"; "__defineSetter__"; "__lookupGetter__";
    "__lookupSetter__" ].

Definition inherited (key : string) : bool :=
  existsb (String.eqb key) Object_prototype.

Definition getRandomCoordinateForCountry (countryCode : string)
  : Eff (option (number * number)) :=
  match COUNTRY_BOUNDARIES !! countryCode with
  | Some bounds =>
      r1 ← Math_random;
      let randomLat := (fst (lat bounds) + r1 * (snd (lat bounds) - fst (lat bounds)))%Q in
      r2 ← Math_random;
      let randomLong := (fst (long bounds) + r2 * (snd (long bounds) - fst (long bounds)))%Q in
      mret (Some (Fin (toFixed6 randomLat), Fin (toFixed6 randomLong)))
  | None =>
      if inherited countryCode
      then throw "TypeError: Cannot read properties of undefined (reading '0')"
      else mret None
  end.

(** The predicate of the first [filter]. *)
Definition hasValidGeo (station : RadioStation) : bool :=
  truthy (geoLat station) && truthy (geoLong station)
  && negb (isNaN (geoLat station)) && negb (isNaN (geoLong station)).

(** The [reduce] that counts the valid stations of each country.  Only the
    priority codes are read back from the result, and none of them is a
    name inherited from [Object.prototype], so a count per key describes
    the accumulator object. *)
Definition countStation (acc : gmap string nat) (station : RadioStation)
  : gmap string nat :=
  let country :=
    if truthy_string (countryCode station) then countryCode station else "unknown" in
  <[country := default 0 (acc !! country) + 1]> acc.

Definition countryCounts (validGeoStations : list RadioStation) : gmap string nat :=
  fold_left countStation validGeoStations ∅.

(** [!countryCounts[country.code] || countryCounts[country.code] < 5] *)
Definition needsMore (counts : gmap string nat) (country : Country) : bool :=
  match counts !! code country with
  | None => true
  | Some n => (n =? 0) || (n <? 5)
  end.

(** The callback of [additionalStations.map]. *)
Definition assignCoordinates (station : RadioStation) : Eff RadioStation :=
  if negb (truthy (geoLat station)) || negb (truthy (geoLong station))
     || isNaN (geoLat station) || isNaN (geoLong station)
  then
    randomCoords ← getRandomCoordinateForCountry (countryCode station);
    match randomCoords with
    | Some (geoLat', geoLong') => mret (with_coords station geoLat' geoLong')
    | None => mret station
    end
  else mret station.

(** The callback of [additionalStations.forEach]. *)
Definition addStation (allStations : list RadioStation) (station : RadioStation)
  : list RadioStation :=
  if negb (existsb (fun s => String.eqb (id s) (id station)) allStations)
     && truthy (geoLat station) && truthy (geoLong station)
  then allStations ++ [station]
  else allStations.

Definition getRadioStationsWithGeoData (limit : option nat) : Eff (list RadioStation) :=
  let limit := default 800 limit in
  try_catch
    (stationsWithGeo ← searchStations (geoQuery limit);
     let validGeoStations := List.filter hasValidGeo stationsWithGeo in
     let counts := countryCounts validGeoStations in
     additionalStationsArrays ←
       forM (fun country => getRadioStationsForCountry (code country) (Some 20))
            (List.filter (needsMore counts) IMPORTANT_COUNTRIES);
     let additionalStations := concat additionalStationsArrays in
     additionalStations ← forM assignCoordinates additionalStations;
     mret (fold_left addStation additionalStations validGeoStations))
    (fun error =>
       _ ← console_error "Error fetching radio stations:" error;
       mret []).

(** A failed country query contributes the empty array. *)
Definition contribution (countryCode : string) (limit : nat) : list RadioStation :=
  match api (countryQuery countryCode limit) with
  | Resolved stations => stations
  | Rejected _ => []
  end.

(** The priority countries queried again after a primary answer, and the
    stations those queries bring. *)
Definition underCovered (stationsWithGeo : list RadioStation) : list Country :=
  List.filter (needsMore (countryCounts (List.filter hasValidGeo stationsWithGeo)))
    IMPORTANT_COUNTRIES.

Definition additionalStations (stationsWithGeo : list RadioStation) : list RadioStation :=
  concat (map (fun c => contribution (code c) 20) (underCovered stationsWithGeo)).

(** Number of entries of the primary answer that pass the filter and carry
    the given country code. *)
Definition coverage (stationsWithGeo : list RadioStation) (countryCode' : string) : nat :=
  length (List.filter
            (fun station => hasValidGeo station && String.eqb (countryCode station) countryCode')
            stationsWithGeo).

End Service.

End radioService.

(** ** The audio player component *)

Module AudioPlayer.

(** A [Howl] object is known by the order of its creation. *)
Definition handle : Type := nat.

(** What the component asks of the audio library. *)
Inductive howler_call : Type :=
  | New (h : handle) (src : string) (volume : Q)   (* new Howl({ src: [url], volume, on... }) *)
  | Play (h : handle)
  | Pause (h : handle)
  | Volume (h : handle) (volume : Q)
  | Unload (h : handle).

(** The callbacks given to [new Howl]. *)
Inductive callback : Type :=
  | onplay | onload | onloaderror | onplayerror | onstop | onend.

(** The props, the four state variables and the ref of a mounted
    [AudioPlayer], with the calls made on the library so far (oldest
    first). *)
Record Component : Type := {
  station : option RadioStation;
  isPlaying : bool;
  volume : Q;
  isLoading : bool;
  error : option string;
  soundRef : option handle;
  mounted : bool;
  howls : list howler_call;
  created : nat
}.

Definition setIsPlaying (b : bool) (c : Component) : Component :=
  {| station := station c; isPlaying := b; volume := volume c; isLoading := isLoading c;
     error := error c; soundRef := soundRef c; mounted := mounted c; howls := howls c;
     created := created c |}.

Definition setVolume (v : Q) (c : Component) : Component :=
  {| station := station c; isPlaying := isPlaying c; volume := v; isLoading := isLoading c;
     error := error c; soundRef := soundRef c; mounted := mounted c; howls := howls c;
     created := created c |}.

Definition setIsLoading (b : bool) (c : Component) : Component :=
  {| station := station c; isPlaying := isPlaying c; volume := volume c; isLoading := b;
     error := error c; soundRef := soundRef c; mounted := mounted c; howls := howls c;
     created := created c |}.

Definition setError (e : option string) (c : Component) : Component :=
  {| station := station c; isPlaying := isPlaying c; volume := volume c;
     isLoading := isLoading c; error := e; soundRef := soundRef c; mounted := mounted c;
     howls := howls c; created := created c |}.

Definition setStation (st : option RadioStation) (c : Component) : Component :=
  {| station := st; isPlaying := isPlaying c; volume := volume c; isLoading := isLoading c;
     error := error c; soundRef := soundRef c; mounted := mounted c; howls := howls c;
     created := created c |}.

(** [soundRef.current = r] *)
Definition setSoundRef (r : option handle) (c : Component) : Component :=
  {| station := station c; isPlaying := isPlaying c; volume := volume c;
     isLoading := isLoading c; error := error c; soundRef := r; mounted := mounted c;
     howls := howls c; created := created c |}.

Definition call (k : howler_call) (c : Component) : Component :=
  {| station := station c; isPlaying := isPlaying c; volume := volume c;
     isLoading := isLoading c; error := error c; soundRef := soundRef c;
     mounted := mounted c; howls := howls c ++ [k]; created := created c |}.

(** [new Howl({...})]: the call is logged and the new object returned. *)
Definition newHowl (src : string) (v : Q) (c : Component) : handle * Component :=
  (created c,
   {| station := station c; isPlaying := isPlaying c; volume := volume c;
      isLoading := isLoading c; error := error c; soundRef := soundRef c;
      mounted := mounted c; howls := howls c ++ [New (created c) src v];
      created := S (created c) |}).

(** [if (soundRef.current) { soundRef.current.unload(); soundRef.current = null; }],
    the opening of the first effect and also its cleanup function. *)
Definition release (c : Component) : Component :=
  match soundRef c with
  | Some h => setSoundRef None (call (Unload h) c)
  | None => c
  end.

(** The body of the first effect. *)
Definition stationEffect (c : Component) : Component :=
  let c := release c in
  let c := setError None c in
  let c := setIsPlaying false c in
  match station c with
  | Some st =>
      if truthy_string (url st) then
        let c := setIsLoading true c in
        let (h, c) := newHowl (url st) (volume c) c in
        let c := setSoundRef (Some h) c in
        call (Play h) c
      else c
  | None => c
  end.

(** The body of the second effect. *)
Definition volumeEffect (c : Component) : Component :=
  match soundRef c with
  | Some h => call (Volume h (volume c)) c
  | None => c
  end.

(** The dependency of the first effect, [station?.url]. *)
Definition dep (st : option RadioStation) : option string := url <$> st.

(** The first render: initial state, then both effects in order. *)
Definition mount (st : option RadioStation) : Component :=
  volumeEffect
    (stationEffect
       {| station := st; isPlaying := false; volume := 0.75; isLoading := false;
          error := None; soundRef := None; mounted := true; howls := []; created := 0 |}).

(** A render with a new [station] prop: the first effect is cleaned up and
    run again when its dependency changed. *)
Definition render (st : option RadioStation) (c : Component) : Component :=
  if decide (dep (station c) = dep st)
  then setStation st c
  else stationEffect (release (setStation st c)).

(** [handleVolumeChange]: a state change re-renders and runs the second
    effect; setting the value the state already has does neither. *)
Definition handleVolumeChange (newVolume : Q) (c : Component) : Component :=
  if Qeq_bool newVolume (volume c) then c
  else volumeEffect (setVolume newVolume c).

Definition togglePlayPause (c : Component) : Component :=
  match soundRef c with
  | None => c
  | Some h =>
      if isPlaying c
      then setIsPlaying false (call (Pause h) c)
      else setIsPlaying true (call (Play h) c)
  end.

(** The body of each callback. *)
Definition fire (cb : callback) (c : Component) : Component :=
  match cb with
  | onplay => setIsLoading false (setIsPlaying true c)
  | onload => setIsLoading false c
  | onloaderror => setError (Some "Failed to load station") (setIsLoading false c)
  | onplayerror =>
      setError (Some "Failed to play station") (setIsLoading false (setIsPlaying false c))
  | onstop => setIsPlaying false c
  | onend => setIsPlaying false c
  end.

Definition unmount (c : Component) : Component :=
  let c := release c in
  {| station := station c; isPlaying := isPlaying c; volume := volume c;
     isLoading := isLoading c; error := error c; soundRef := soundRef c;
     mounted := false; howls := howls c; created := created c |}.

(** What can happen to a mounted player. *)
Inductive event : Type :=
  | Render (st : option RadioStation)     (* the page renders it with this prop *)
  | ChangeVolume (newVolume : Q)          (* the slider moves *)
  | ClickPlayPause                        (* the button is clicked *)
  | Fire (h : handle) (cb : callback)     (* the library calls a callback of Howl [h] *)
  | Unmount.

(** The slider and the button exist only while a station is shown, and the
    button is disabled while loading; a callback exists once its Howl has
    been created; state setters do nothing after the unmount. *)
Definition step (e : event) (c : Component) : Component :=
  if mounted c then
    match e with
    | Render st => render st c
    | ChangeVolume newVolume =>
        match station c with
        | Some _ => handleVolumeChange newVolume c
        | None => c
        end
    | ClickPlayPause =>
        match station c with
        | Some _ => if isLoading c then c else togglePlayPause c
        | None => c
        end
    | Fire h cb => if h <? created c then fire cb c else c
    | Unmount => unmount c
    end
  else c.

Definition run (events : list event) (c : Component) : Component :=
  fold_left (fun c e => step e c) events c.

Inductive reachable : Component -> Prop :=
  | reachable_mount st : reachable (mount st)
  | reachable_step e c : reachable c -> reachable (step e c).

(** The Howls created and not yet unloaded after a sequence of calls. *)
Definition after_call (live : list handle) (k : howler_call) : list handle :=
  match k with
  | New h _ _ => live ++ [h]
  | Unload h => List.filter (fun h' => negb (h' =? h)) live
  | _ => live
  end.

Definition live (calls : list howler_call) : list handle :=
  fold_left after_call calls [].

(** The volume last given to Howl [h], at its creation or by [volume()]. *)
Definition requested_after (h : handle) (v : option Q) (k : howler_call) : option Q :=
  match k with
  | New h' _ v' => if h' =? h then Some v' else v
  | Volume h' v' => if h' =? h then Some v' else v
  | _ => v
  end.

Definition requestedVolume (calls : list howler_call) (h : handle) : option Q :=
  fold_left (requested_after h) calls None.

#[global] Arguments live : simpl never.
#[global] Arguments requestedVolume : simpl never.

(** The stream a session is created for: [station.url] when
    [station?.url] is truthy. *)
Definition stream (st : option RadioStation) : option string :=
  match st with
  | Some st => if truthy_string (url st) then Some (url st) else None
  | None => None
  end.

(** The calls that end the current session and those that start one. *)
Definition teardown (c : Component) : list howler_call :=
  match soundRef c with
  | Some h => [Unload h]
  | None => []
  end.

Definition startup (c : Component) (st : option RadioStation) : list howler_call :=
  match stream st with
  | Some src => [New (created c) src (volume c); Play (created c)]
  | None => []
  end.

(** At every point of a sequence of calls at most one Howl is live. *)
Definition exclusive (calls : list howler_call) : Prop :=
  ∀ p, p `prefix_of` calls → length (live p) ≤ 1.

(** The ref and the library agree: the Howl in [soundRef] is the only live
    one, it was created for the stream of the station shown, and it was last
    given the volume of the state. *)
Record consistent (c : Component) : Prop := {
  live_ref : live (howls c) = option_list (soundRef c);
  log_exclusive : exclusive (howls c);
  ref_created : ∀ h, soundRef c = Some h → h < created c;
  ref_stream : ∀ h, soundRef c = Some h → mounted c = true ∧ is_Some (stream (station c));
  ref_volume : ∀ h, soundRef c = Some h →
               ∃ v, requestedVolume (howls c) h = Some v ∧ (v == volume c)%Q
}.

(** What the player shows of a session. *)
Definition visible (c : Component) : bool * bool * option string :=
  (isPlaying c, isLoading c, error c).

End AudioPlayer.

(** ** The map component *)

Module WorldMap.

Definition DEFAULT_CENTER : Q * Q := (0, 20)%Q.
Definition DEFAULT_ZOOM : Q := 1.
Definition MIN_ZOOM : Q := 1.
Definition MAX_ZOOM : Q := 4.
Definition ZOOM_STEP : Q := 1.5.

(** The three state variables of [WorldMap]. *)
Record Map : Type := {
  hoveredStation : option RadioStation;
  center : Q * Q;
  zoom : Q
}.

Definition firstView : Map :=
  {| hoveredStation := None; center := DEFAULT_CENTER; zoom := DEFAULT_ZOOM |}.

Definition setHoveredStation (st : option RadioStation) (m : Map) : Map :=
  {| hoveredStation := st; center := center m; zoom := zoom m |}.

Definition setCenter (c : Q * Q) (m : Map) : Map :=
  {| hoveredStation := hoveredStation m; center := c; zoom := zoom m |}.

(** [setZoom(prev => f(prev))] *)
Definition setZoom (f : Q -> Q) (m : Map) : Map :=
  {| hoveredStation := hoveredStation m; center := center m; zoom := f (zoom m) |}.

Definition handleZoomIn (m : Map) : Map :=
  setZoom (fun prev => Qmin MAX_ZOOM (prev * ZOOM_STEP)) m.

Definition handleZoomOut (m : Map) : Map :=
  setZoom (fun prev => Qmax MIN_ZOOM (prev / ZOOM_STEP)) m.

(** The [onClick] of the "Reset view" button. *)
Definition resetView (m : Map) : Map :=
  setCenter DEFAULT_CENTER (setZoom (fun _ => DEFAULT_ZOOM) m).

Definition handleMoveEnd (coordinates : Q * Q) (zoom' : Q) (m : Map) : Map :=
  setZoom (fun _ => zoom') (setCenter coordinates m).

Inductive gesture : Type :=
  | ZoomIn
  | ZoomOut
  | Reset
  | MoveEnd (coordinates : Q * Q) (zoom' : Q)   (* [onMoveEnd] of the zoomable group *)
  | MouseEnter (st : RadioStation)
  | MouseLeave.

Definition apply_gesture (e : gesture) (m : Map) : Map :=
  match e with
  | ZoomIn => handleZoomIn m
  | ZoomOut => handleZoomOut m
  | Reset => resetView m
  | MoveEnd coordinates zoom' => handleMoveEnd coordinates zoom' m
  | MouseEnter st => setHoveredStation (Some st) m
  | MouseLeave => setHoveredStation None m
  end.

Definition gestures (events : list gesture) (m : Map) : Map :=
  fold_left (fun m e => apply_gesture e m) events m.

(** [v || 0] *)
Definition orZero (v : option number) : number :=
  match v with
  | Some x => if truthy v then x else Fin 0
  | None => Fin 0
  end.

(** [currentStation?.id === station.id] *)
Definition isCurrent (currentStation : option RadioStation) (station : RadioStation) : bool :=
  match currentStation with
  | Some current => String.eqb (id current) (id station)
  | None => false
  end.

(** What a [Marker] and its circle are given. *)
Record Marker : Type := {
  key : string;
  coordinates : number * number;
  r : nat;
  fill : string
}.

Definition marker (currentStation : option RadioStation) (station : RadioStation) : Marker :=
  {| key := id station;
     coordinates := (orZero (geoLong station), orZero (geoLat station));
     r := if isCurrent currentStation station then 5 else 3;
     fill := if isCurrent currentStation station then "#FF4500" else "#38b2ac" |}.

Definition markers (stations : list RadioStation) (currentStation : option RadioStation)
  : list Marker :=
  map (marker currentStation) stations.

(** For [length] and [substring] a JavaScript string is the sequence of its
    UTF-16 code units. *)
Definition code_unit : Type := N.

Definition utf16 : Type := list code_unit.

(** The code units of a literal written with ASCII characters only. *)
Definition ascii_literal (s : string) : utf16 :=
  map Ascii.N_of_ascii (String.list_ascii_of_string s).

(** [s.substring(0, n)] *)
Definition substring_0 (n : nat) (s : utf16) : utf16 := take n s.

(** The first line of the tooltip in the earlier version of the component:
    [name.length > 12 ? name.substring(0, 10) + '...' : name]. *)
Definition tooltipName (name : utf16) : utf16 :=
  if 12 <? length name then substring_0 10 name ++ ascii_literal "..." else name.

End WorldMap.

(** ** The page *)

Module Home.
Import radioService.

(** The four state variables of [Home]. *)
Record Page : Type := {
  stations : list RadioStation;
  currentStation : option RadioStation;
  loading : bool;
  error : option string
}.

Definition firstRender : Page :=
  {| stations := []; currentStation := None; loading := true; error := None |}.

Definition setStations (l : list RadioStation) (p : Page) : Page :=
  {| stations := l; currentStation := currentStation p; loading := loading p;
     error := error p |}.

Definition setCurrentStation (st : option RadioStation) (p : Page) : Page :=
  {| stations := stations p; currentStation := st; loading := loading p; error := error p |}.

Definition setLoading (b : bool) (p : Page) : Page :=
  {| stations := stations p; currentStation := currentStation p; loading := b;
     error := error p |}.

Definition setError (e : option string) (p : Page) : Page :=
  {| stations := stations p; currentStation := currentStation p; loading := loading p;
     error := e |}.

Section Service.

Variable api : Query -> outcome (list RadioStation).
Variable random : nat -> Q.

(** [loadStations], with its [try], [catch] and [finally]. *)
Definition loadStations (p : Page) : Eff Page :=
  let p := setLoading true p in
  p ← try_catch
        (stationsData ← getRadioStationsWithGeoData api random (Some 500);
         if length stationsData =? 0
         then mret (setError (Some "No radio stations found with geographic data") p)
         else mret (setError None (setStations stationsData p)))
        (fun err =>
           _ ← console_error "Failed to load radio stations:" err;
           mret (setError (Some "Failed to load radio stations. Please try again later.") p));
  mret (setLoading false p).

End Service.

Definition handleStationSelect (station : RadioStation) (p : Page) : Page :=
  setCurrentStation (Some station) p.

(** What [main] shows: [loading ? ... : error ? ... : ...]. *)
Inductive Main : Type :=
  | Spinner
  | ErrorPanel (message : string)
  | MapPanel (stations : list RadioStation) (currentStation : option RadioStation).

Definition main (p : Page) : Main :=
  if loading p then Spinner
  else match error p with
       | Some message =>
           if truthy_string message then ErrorPanel message
           else MapPanel (stations p) (currentStation p)
       | None => MapPanel (stations p) (currentStation p)
       end.

End Home.

(** ** The page with its player *)

Module App.

(** [Home] renders [<AudioPlayer station={currentStation} />] and gives the
    map [handleStationSelect] as [onStationSelect]. *)
Record State : Type := {
  page : Home.Page;
  player : AudioPlayer.Component
}.

(** What the user and the audio library can do once the page has loaded. *)
Inductive action : Type :=
  | MarkerClick (i : nat)                 (* the marker of [stations[i]] is clicked *)
  | MoveSlider (newVolume : Q)
  | PressPlay
  | Callback (h : AudioPlayer.handle) (cb : AudioPlayer.callback).

(** A marker exists only while [main] shows the map; its click sets the
    current station and the page renders the player with it. *)
Definition act (e : action) (a : State) : State :=
  match e with
  | MarkerClick i =>
      match Home.main (page a) with
      | Home.MapPanel stations _ =>
          match stations !! i with
          | Some station =>
              let page' := Home.handleStationSelect station (page a) in
              {| page := page';
                 player := AudioPlayer.step (AudioPlayer.Render (Home.currentStation page'))
                             (player a) |}
          | None => a
          end
      | _ => a
      end
  | MoveSlider newVolume =>
      {| page := page a;
         player := AudioPlayer.step (AudioPlayer.ChangeVolume newVolume) (player a) |}
  | PressPlay =>
      {| page := page a; player := AudioPlayer.step AudioPlayer.ClickPlayPause (player a) |}
  | Callback h cb =>
      {| page := page a; player := AudioPlayer.step (AudioPlayer.Fire h cb) (player a) |}
  end.

Definition acts (events : list action) (a : State) : State :=
  fold_left (fun a e => act e a) events a.

(** The page after [loadStations] has finished, with the player it mounted
    at the first render. *)
Definition loaded (p : Home.Page) : State :=
  {| page := p; player := AudioPlayer.mount None |}.

End App.

(** ** Specification vocabulary and sample data *)

(** A coordinate that is a finite number within [lo, hi]. *)
Definition inRange (lo hi : Q) (v : option number) : Prop :=
  ∃ q, v = Some (Fin q) ∧ (lo <= q <= hi)%Q.

Definition validCoordinates (station : RadioStation) : Prop :=
  inRange (-90) 90 (geoLat station) ∧ inRange (-180) 180 (geoLong station).

Module Samples.
Import radioService.

Definition sample (id' countryCode' : string) (geoLat' geoLong' : option number)
  : RadioStation :=
  {| id := id'; name := "Radio " +:+ id'; url := "https://stream.example/" +:+ id';
     favicon := ""; countryCode := countryCode'; country := ""; state := "";
     language := inl []; codec := "MP3"; bitrate := Fin 128; votes := Fin 0;
     geoLat := geoLat'; geoLong := geoLong' |}.

(** A directory service that answers the primary query with [primary] and a
    country query with [byCountry]. *)
Definition service (primary : list RadioStation)
    (byCountry : string -> outcome (list RadioStation))
  : Query -> outcome (list RadioStation) :=
  fun q => match q_countryCode q with
           | None => Resolved primary
           | Some countryCode => byCountry countryCode
           end.

Definition boston : RadioStation := sample "us-1" "US" (Some (Fin 42.36)) (Some (Fin (-71.06))).

Definition nothing : string -> outcome (list RadioStation) := fun _ => Resolved [].

Definition half : nat -> Q := fun _ => (1 # 2)%Q.

Definition paris : RadioStation := sample "fr-1" "FR" (Some (Fin 48.85)) (Some (Fin 2.35)).
Definition paris_again : RadioStation := sample "fr-1" "FR" (Some (Fin 43.3)) (Some (Fin 5.37)).
Definition far_north : RadioStation := sample "xx-1" "FR" (Some (Fin 1000)) (Some (Fin 2.35)).
Definition quito : RadioStation := sample "ec-1" "EC" (Some (Fin 0)) (Some (Fin (-78.5))).
Definition tokyo_no_geo : RadioStation := sample "jp-1" "JP" None None.

Definition tokyo : RadioStation := sample "jp-2" "JP" (Some (Fin 35.68)) (Some (Fin 139.69)).

(** A second directory entry for the stream of [paris]. *)
Definition paris_relisted : RadioStation :=
  {| id := "fr-9"; name := "Paris bis"; url := "https://stream.example/fr-1";
     favicon := ""; countryCode := "FR"; country := "France"; state := "";
     language := inr "french"; codec := "MP3"; bitrate := Fin 128; votes := Fin 3;
     geoLat := Some (Fin 48.85); geoLong := Some (Fin 2.35) |}.

(** India's query fails, Japan's brings a station without coordinates. *)
Definition india_down : string -> outcome (list RadioStation) := fun countryCode =>
  if String.eqb countryCode "IN" then Rejected "503"
  else if String.eqb countryCode "JP" then Resolved [tokyo_no_geo]
  else Resolved [].

(** India's query fails, Japan's brings a station with coordinates. *)
Definition india_down_japan_up : string -> outcome (list RadioStation) := fun countryCode =>
  if String.eqb countryCode "IN" then Rejected "503"
  else if String.eqb countryCode "JP" then Resolved [tokyo]
  else Resolved [].

(** Five stations of the United Kingdom on the prime meridian, and five a
    little west of it. *)
Definition greenwich (n : string) : RadioStation :=
  sample ("gb-" +:+ n) "GB" (Some (Fin 51.48)) (Some (Fin 0)).

Definition london (n : string) : RadioStation :=
  sample ("gb-" +:+ n) "GB" (Some (Fin 51.51)) (Some (Fin (-0.13))).

Definition greenwich_five : list RadioStation := map greenwich ["1"; "2"; "3"; "4"; "5"].

Definition london_five : list RadioStation := map london ["1"; "2"; "3"; "4"; "5"].

End Samples.

(** ** Properties of the station service *)

Module radioServiceProofs.
Import radioService.

(** *** Numbers *)

Lemma truthy_isNaN v : truthy v = true → isNaN v = false.
Proof. destruct v as [[q| | |]|]; cbn; congruence. Qed.


Lemma Qfloor_half_between (a b : Z) (y : Q) :
  (inject_Z a <= y <= inject_Z b)%Q →
  (a * 1000000 ≤ Qfloor (y * 1000000 + (1 # 2)) ≤ b * 1000000)%Z.
Proof.
  intros [Ha Hb].
  set (z := (y * 1000000 + (1 # 2))%Q).
  pose proof (Qfloor_le z) as Hlo.
  pose proof (Qlt_floor z) as Hhi.
  rewrite inject_Z_plus in Hhi. change (inject_Z 1) with 1%Q in Hhi.
  split.
  - apply Z.lt_succ_r, Z.lt_pred_lt_succ. unfold Z.pred.
    rewrite Zlt_Qlt, inject_Z_plus, inject_Z_mult.
    change (inject_Z (-1)) with (-1)%Q. change (inject_Z 1000000) with 1000000%Q.
    unfold z in *. lra.
  - apply Z.lt_succ_r. unfold Z.succ.
    rewrite Zlt_Qlt, inject_Z_plus, inject_Z_mult.
    change (inject_Z 1000000) with 1000000%Q. change (inject_Z 1) with 1%Q.
    unfold z in *. lra.
Qed.

(** Rounding to six decimals does not leave an interval with integer ends. *)
Lemma toFixed6_between (a b : Z) (x : Q) :
  (inject_Z a <= x <= inject_Z b)%Q →
  (inject_Z a <= toFixed6 x <= inject_Z b)%Q.
Proof.
  intros [Ha Hb]. unfold toFixed6.
  destruct (Qle_bool 0 x) eqn:E.
  - apply Qle_bool_iff in E. rewrite Qabs_pos by exact E.
    destruct (Qfloor_half_between a b x (conj Ha Hb)) as [H1 H2].
    unfold Qle, inject_Z. cbn [Qnum Qden]. lia.
  - assert (x < 0)%Q as Hneg.
    { apply Qnot_le_lt. intros H. apply Qle_bool_iff in H. congruence. }
    rewrite Qabs_neg by (apply Qlt_le_weak; exact Hneg).
    destruct (Qfloor_half_between (- b) (- a) (- x)) as [H1 H2].
    { rewrite !inject_Z_opp. lra. }
    unfold Qle, inject_Z. cbn [Qnum Qden]. lia.
Qed.


Lemma draw_between (lo hi r : Q) :
  (lo <= hi)%Q → (0 <= r < 1)%Q → (lo <= lo + r * (hi - lo) <= hi)%Q.
Proof. intros H [H0 H1]. split; nra. Qed.

(** The first filter keeps exactly the entries whose two coordinates are
    truthy: set, not NaN and not zero. *)
Lemma hasValidGeo_truthy station :
  hasValidGeo station = truthy (geoLat station) && truthy (geoLong station).
Proof.
  unfold hasValidGeo.
  destruct (truthy (geoLat station)) eqn:E1; [|reflexivity].
  destruct (truthy (geoLong station)) eqn:E2; [|reflexivity].
  by rewrite (truthy_isNaN _ E1), (truthy_isNaN _ E2).
Qed.

(** *** The bounds table *)

(** A box with integer corners inside the valid coordinate ranges. *)
Definition integer_box (b : Bounds) : Prop :=
  ∃ s n w e : Z,
    lat b = (inject_Z s, inject_Z n) ∧ long b = (inject_Z w, inject_Z e)
    ∧ (-90 ≤ s ≤ n)%Z ∧ (n ≤ 90)%Z ∧ (-180 ≤ w ≤ e)%Z ∧ (e ≤ 180)%Z.

Lemma COUNTRY_BOUNDARIES_boxes countryCode b :
  COUNTRY_BOUNDARIES !! countryCode = Some b → integer_box b.
Proof.
  intros H. unfold COUNTRY_BOUNDARIES in H.
  apply elem_of_list_to_map_2 in H.
  repeat (apply elem_of_cons in H as [H|H];
          [injection H as _ ->; eexists _, _, _, _; repeat split; lia |]).
  by apply elem_of_nil in H.
Qed.

Lemma boxed_draw b r1 r2 :
  integer_box b → (0 <= r1 < 1)%Q → (0 <= r2 < 1)%Q →
  let la := toFixed6 (fst (lat b) + r1 * (snd (lat b) - fst (lat b))) in
  let lo := toFixed6 (fst (long b) + r2 * (snd (long b) - fst (long b))) in
  ((fst (lat b) <= la <= snd (lat b)) ∧ (fst (long b) <= lo <= snd (long b))
   ∧ (-90 <= la <= 90) ∧ (-180 <= lo <= 180))%Q.
Proof.
  intros (s & n & w & e & -> & -> & Hs & Hn & Hw & He) Hr1 Hr2. cbn [fst snd].
  assert (inject_Z s <= inject_Z n)%Q as Hsn by (rewrite <- Zle_Qle; lia).
  assert (inject_Z w <= inject_Z e)%Q as Hwe by (rewrite <- Zle_Qle; lia).
  pose proof (toFixed6_between s n _ (draw_between _ _ r1 Hsn Hr1)) as [A1 A2].
  pose proof (toFixed6_between w e _ (draw_between _ _ r2 Hwe Hr2)) as [B1 B2].
  assert (-90 <= inject_Z s)%Q by (change (-90)%Q with (inject_Z (-90)); rewrite <- Zle_Qle; lia).
  assert (inject_Z n <= 90)%Q by (change 90%Q with (inject_Z 90); rewrite <- Zle_Qle; lia).
  assert (-180 <= inject_Z w)%Q by (change (-180)%Q with (inject_Z (-180)); rewrite <- Zle_Qle; lia).
  assert (inject_Z e <= 180)%Q by (change 180%Q with (inject_Z 180); rewrite <- Zle_Qle; lia).
  repeat split; try assumption; eapply Qle_trans; eassumption.
Qed.

(** *** The monad *)

Lemma try_catch_normal {A} (body : Eff A) (handler : string -> Eff A) σ :
  (∀ e σ1, ∃ a σ2, handler e σ1 = (Normal a, σ2)) →
  ∃ a σ', try_catch body handler σ = (Normal a, σ').
Proof.
  intros Hh. unfold try_catch.
  destruct (body σ) as [[a|e] σ1]; eauto.
Qed.

Lemma bind_normal {A B} (m : Eff A) (f : A -> Eff B) σ b σ' :
  (m ≫= f) σ = (Normal b, σ') →
  ∃ a σ1, m σ = (Normal a, σ1) ∧ f a σ1 = (Normal b, σ').
Proof.
  unfold mbind, Eff_bind.
  destruct (m σ) as [[a|e] σ1]; intros H; [eauto | discriminate].
Qed.

Lemma forM_normal_cons {A B} (f : A -> Eff B) x l σ ys σ' :
  forM f (x :: l) σ = (Normal ys, σ') →
  ∃ y ys' σ1, f x σ = (Normal y, σ1) ∧ forM f l σ1 = (Normal ys', σ') ∧ ys = y :: ys'.
Proof.
  cbn [forM]. intros H.
  apply bind_normal in H as (y & σ1 & Hy & H).
  apply bind_normal in H as (ys' & σ2 & Hys & H).
  unfold mret, Eff_ret in H. injection H as <- <-. eauto 7.
Qed.

(** An invariant of the environment kept by every call of the callback is
    kept by the whole traversal, however it completes. *)
Lemma forM_env_inv {A B} (P : Env -> Prop) (f : A -> Eff B) l :
  (∀ x σ, P σ → P (snd (f x σ))) →
  ∀ σ, P σ → P (snd (forM f l σ)).
Proof.
  intros Hf. induction l as [|x l IH]; intros σ Hσ; cbn [forM]; [exact Hσ|].
  unfold mbind, Eff_bind.
  specialize (Hf x σ Hσ).
  destruct (f x σ) as [[y|e] σ1]; cbn [snd] in *; [|exact Hf].
  specialize (IH σ1 Hf).
  destruct (forM f l σ1) as [[ys|e] σ2]; cbn [snd] in *; exact IH.
Qed.

Section Facts.

Variable api : Query -> outcome (list RadioStation).
Variable random : nat -> Q.

(** *** The country queries *)

Lemma getRadioStationsForCountry_spec countryCode limit σ :
  ∃ σ', getRadioStationsForCountry api countryCode (Some limit) σ
        = (Normal (contribution api countryCode limit), σ')
     ∧ draws σ' = draws σ
     ∧ queries σ' = queries σ ++ [countryQuery countryCode limit].
Proof.
  unfold getRadioStationsForCountry, try_catch, contribution, mbind, Eff_bind,
    searchStations.
  change (default 50 (Some limit)) with limit.
  destruct (api (countryQuery countryCode limit)) as [stations|reason];
    eexists; (split; [reflexivity|]); split; reflexivity.
Qed.

Lemma forM_countries (countries : list Country) σ :
  ∃ σ', forM (fun c => getRadioStationsForCountry api (code c) (Some 20)) countries σ
        = (Normal (map (fun c => contribution api (code c) 20) countries), σ')
     ∧ draws σ' = draws σ
     ∧ queries σ' = queries σ ++ map (fun c => countryQuery (code c) 20) countries.
Proof.
  revert σ. induction countries as [|c cs IH]; intros σ.
  - exists σ. cbn. by rewrite app_nil_r.
  - destruct (getRadioStationsForCountry_spec (code c) 20 σ) as (σ1 & E1 & D1 & Q1).
    destruct (IH σ1) as (σ2 & E2 & D2 & Q2).
    exists σ2. cbn [forM map]. unfold mbind, Eff_bind at 1. rewrite E1.
    unfold mbind, Eff_bind at 1. rewrite E2.
    split; [reflexivity|]. split; [congruence|].
    rewrite Q2, Q1, <- app_assoc. reflexivity.
Qed.

(** *** Coordinate assignment leaves the query log alone *)

Lemma getRandomCoordinateForCountry_queries countryCode σ :
  queries (snd (getRandomCoordinateForCountry random countryCode σ)) = queries σ.
Proof.
  unfold getRandomCoordinateForCountry.
  destruct (COUNTRY_BOUNDARIES !! countryCode); [reflexivity|].
  destruct (inherited countryCode); reflexivity.
Qed.

Lemma assignCoordinates_queries station σ :
  queries (snd (assignCoordinates random station σ)) = queries σ.
Proof.
  unfold assignCoordinates.
  destruct (_ || _); [|reflexivity].
  unfold mbind, Eff_bind.
  pose proof (getRandomCoordinateForCountry_queries (countryCode station) σ) as H.
  destruct (getRandomCoordinateForCountry random (countryCode station) σ)
    as [[[[la lo]|]|e] σ1]; exact H.
Qed.

Lemma forM_assignCoordinates_queries stations σ :
  queries (snd (forM (assignCoordinates random) stations σ)) = queries σ.
Proof.
  apply (forM_env_inv (fun σ' => queries σ' = queries σ)); [|reflexivity].
  intros x σ1 H. by rewrite assignCoordinates_queries.
Qed.

(** *** The shape of a run *)

Lemma run_rejected limit σ reason :
  api (geoQuery (default 800 limit)) = Rejected reason →
  ∃ σ', getRadioStationsWithGeoData api random limit σ = (Normal [], σ')
      ∧ queries σ' = queries σ ++ [geoQuery (default 800 limit)].
Proof.
  intros H. unfold getRadioStationsWithGeoData, try_catch, mbind, Eff_bind, searchStations.
  rewrite H. eexists. split; reflexivity.
Qed.

Lemma run_resolved limit σ stationsWithGeo :
  api (geoQuery (default 800 limit)) = Resolved stationsWithGeo →
  ∃ σ1,
    queries σ1 = queries σ ++ geoQuery (default 800 limit)
                   :: map (fun c => countryQuery (code c) 20) (underCovered stationsWithGeo)
    ∧ draws σ1 = draws σ
    ∧ ∃ σ', queries σ' = queries σ1 ∧
      getRadioStationsWithGeoData api random limit σ =
      (Normal
         match forM (assignCoordinates random) (additionalStations api stationsWithGeo) σ1 with
         | (Normal additional, _) =>
             fold_left addStation additional (List.filter hasValidGeo stationsWithGeo)
         | (Abrupt _, _) => []
         end, σ').
Proof.
  intros H.
  set (σ0 := {| draws := draws σ; queries := queries σ ++ [geoQuery (default 800 limit)];
                console := console σ |}).
  destruct (forM_countries (underCovered stationsWithGeo) σ0) as (σ1 & E1 & D1 & Q1).
  exists σ1. split; [|split].
  - rewrite Q1. cbn. by rewrite <- app_assoc.
  - exact D1.
  - unfold getRadioStationsWithGeoData, try_catch.
    unfold mbind, Eff_bind at 1. unfold searchStations at 1. rewrite H. fold σ0.
    unfold mbind, Eff_bind at 1. fold (underCovered stationsWithGeo). rewrite E1.
    unfold mbind, Eff_bind at 1. fold (additionalStations api stationsWithGeo).
    pose proof (forM_assignCoordinates_queries (additionalStations api stationsWithGeo) σ1) as HQ.
    destruct (forM (assignCoordinates random) (additionalStations api stationsWithGeo) σ1)
      as [[additional|e] σ2]; cbn [snd] in HQ.
    + exists σ2. split; [exact HQ|reflexivity].
    + eexists. split; [|reflexivity]. exact HQ.
Qed.

(** *** Coverage counts *)

Lemma countStation_lookup acc station cc :
  truthy_string cc = true → cc ≠ "unknown" →
  default 0 (countStation acc station !! cc)
  = default 0 (acc !! cc) + (if String.eqb (countryCode station) cc then 1 else 0).
Proof.
  intros Ht Hu. unfold countStation.
  destruct (truthy_string (countryCode station)) eqn:E.
  - destruct (String.eqb_spec (countryCode station) cc) as [->|Hne].
    + rewrite lookup_insert_eq. reflexivity.
    + rewrite lookup_insert_ne by done. lia.
  - rewrite lookup_insert_ne by done.
    unfold truthy_string in E. apply negb_false_iff, String.eqb_eq in E. rewrite E.
    unfold truthy_string in Ht. apply negb_true_iff in Ht.
    rewrite String.eqb_sym, Ht. lia.
Qed.

Lemma countryCounts_lookup stations cc :
  truthy_string cc = true → cc ≠ "unknown" →
  default 0 (countryCounts stations !! cc)
  = length (List.filter (fun s => String.eqb (countryCode s) cc) stations).
Proof.
  intros Ht Hu. unfold countryCounts.
  enough (∀ acc, default 0 (fold_left countStation stations acc !! cc)
                 = default 0 (acc !! cc)
                   + length (List.filter (fun s => String.eqb (countryCode s) cc) stations))
    as H by (rewrite H, lookup_empty; reflexivity).
  induction stations as [|s l IH]; intros acc; cbn [fold_left List.filter].
  - cbn. lia.
  - rewrite IH, countStation_lookup by done.
    destruct (String.eqb (countryCode s) cc); cbn [length]; lia.
Qed.

Lemma filter_filter_length (p q : RadioStation -> bool) l :
  length (List.filter q (List.filter p l)) = length (List.filter (fun s => p s && q s) l).
Proof.
  induction l as [|s l IH]; [reflexivity|]. cbn [List.filter].
  destruct (p s); cbn [List.filter andb]; [destruct (q s); cbn [length]|]; lia.
Qed.

Lemma needsMore_default counts c :
  needsMore counts c = (default 0 (counts !! code c) <? 5).
Proof.
  unfold needsMore. destruct (counts !! code c) as [n|]; [|reflexivity].
  cbn [default from_option Datatypes.id].
  destruct (Nat.eqb_spec n 0) as [->|]; [reflexivity|]. reflexivity.
Qed.

Lemma IMPORTANT_COUNTRIES_codes :
  Forall (fun c => truthy_string (code c) = true ∧ code c ≠ "unknown") IMPORTANT_COUNTRIES.
Proof. repeat constructor; discriminate. Qed.

Lemma underCovered_coverage stationsWithGeo :
  underCovered stationsWithGeo
  = List.filter (fun c => coverage stationsWithGeo (code c) <? 5) IMPORTANT_COUNTRIES.
Proof.
  unfold underCovered.
  pose proof IMPORTANT_COUNTRIES_codes as HF.
  induction HF as [|c l [Ht Hu] HF IH]; [reflexivity|].
  cbn [List.filter]. rewrite IH, needsMore_default, countryCounts_lookup by done.
  rewrite filter_filter_length. reflexivity.
Qed.

(** *** Coordinate assignment *)

(** The test of the [if] in the [map] callback. *)
Definition lacksCoordinates (station : RadioStation) : bool :=
  negb (truthy (geoLat station)) || negb (truthy (geoLong station))
  || isNaN (geoLat station) || isNaN (geoLong station).

Lemma lacksCoordinates_truthy station :
  lacksCoordinates station = negb (truthy (geoLat station) && truthy (geoLong station)).
Proof.
  unfold lacksCoordinates.
  destruct (truthy (geoLat station)) eqn:E1, (truthy (geoLong station)) eqn:E2;
    cbn; try reflexivity; try (by destruct (isNaN (geoLat station))).
  by rewrite (truthy_isNaN _ E1), (truthy_isNaN _ E2).
Qed.


(** The station produced for a station of a country with bounds [b] when
    the next two draws are [r1] and [r2]. *)
Definition synthesized (station : RadioStation) (b : Bounds) (r1 r2 : Q) : RadioStation :=
  with_coords station
    (Fin (toFixed6 (fst (lat b) + r1 * (snd (lat b) - fst (lat b)))))
    (Fin (toFixed6 (fst (long b) + r2 * (snd (long b) - fst (long b))))).

Lemma assignCoordinates_keeps station σ :
  lacksCoordinates station = false →
  assignCoordinates random station σ = (Normal station, σ).
Proof.
  intros H. unfold assignCoordinates. fold (lacksCoordinates station). by rewrite H.
Qed.

Lemma assignCoordinates_synthesizes station σ b :
  lacksCoordinates station = true →
  COUNTRY_BOUNDARIES !! countryCode station = Some b →
  assignCoordinates random station σ
  = (Normal (synthesized station b (random (draws σ)) (random (S (draws σ)))),
     {| draws := S (S (draws σ)); queries := queries σ; console := console σ |}).
Proof.
  intros H Hb. unfold assignCoordinates. fold (lacksCoordinates station). rewrite H.
  unfold getRandomCoordinateForCountry. rewrite Hb. reflexivity.
Qed.

Lemma assignCoordinates_no_bounds station σ :
  COUNTRY_BOUNDARIES !! countryCode station = None →
  inherited (countryCode station) = false →
  assignCoordinates random station σ = (Normal station, σ).
Proof.
  intros Hb Hi. unfold assignCoordinates.
  destruct (_ || _); [|reflexivity].
  unfold getRandomCoordinateForCountry. rewrite Hb, Hi. reflexivity.
Qed.

Lemma assignCoordinates_cases station σ station' σ' :
  assignCoordinates random station σ = (Normal station', σ') →
  station' = station
  ∨ ∃ b n, COUNTRY_BOUNDARIES !! countryCode station = Some b
           ∧ station' = synthesized station b (random n) (random (S n)).
Proof.
  destruct (lacksCoordinates station) eqn:H.
  - destruct (COUNTRY_BOUNDARIES !! countryCode station) as [b|] eqn:Hb.
    + rewrite (assignCoordinates_synthesizes _ _ b H Hb). intros [= <- <-]. eauto.
    + destruct (inherited (countryCode station)) eqn:Hi.
      * unfold assignCoordinates. fold (lacksCoordinates station). rewrite H.
        unfold getRandomCoordinateForCountry. rewrite Hb, Hi. discriminate.
      * rewrite assignCoordinates_no_bounds by done. intros [= <- <-]. by left.
  - rewrite assignCoordinates_keeps by done. intros [= <- <-]. by left.
Qed.

Lemma forM_assignCoordinates_elem stations σ stations' σ' :
  forM (assignCoordinates random) stations σ = (Normal stations', σ') →
  ∀ station', station' ∈ stations' →
    station' ∈ stations
    ∨ ∃ station b n, station ∈ stations
        ∧ COUNTRY_BOUNDARIES !! countryCode station = Some b
        ∧ station' = synthesized station b (random n) (random (S n)).
Proof.
  revert σ stations'. induction stations as [|s l IH]; intros σ stations' H station' Hin.
  - cbn in H. injection H as <- <-. by apply elem_of_nil in Hin.
  - apply forM_normal_cons in H as (y & ys & σ1 & Hy & Hys & ->).
    apply elem_of_cons in Hin as [->|Hin].
    + apply assignCoordinates_cases in Hy as [->|(b & n & Hb & ->)].
      * left. apply elem_of_cons. by left.
      * right. exists s, b, n. split; [apply elem_of_cons; by left|done].
    + destruct (IH _ _ Hys _ Hin) as [H|(s0 & b & n & H0 & Hb & ->)].
      * left. apply elem_of_cons. by right.
      * right. exists s0, b, n. split; [apply elem_of_cons; by right|done].
Qed.

(** *** The merge *)

Lemma fold_addStation_elem additional base station :
  station ∈ fold_left addStation additional base →
  station ∈ base
  ∨ (station ∈ additional
     ∧ truthy (geoLat station) = true ∧ truthy (geoLong station) = true).
Proof.
  revert base. induction additional as [|s l IH]; intros base H; cbn [fold_left] in H.
  - by left.
  - apply IH in H as [H|(H & Hla & Hlo)].
    + unfold addStation in H.
      destruct (negb _ && truthy (geoLat s) && truthy (geoLong s)) eqn:E; [|by left].
      apply elem_of_app in H as [H|H]; [by left|].
      apply list_elem_of_singleton in H as ->.
      apply andb_prop in E as [E E2]. apply andb_prop in E as [_ E1].
      right. split; [apply elem_of_cons; by left|done].
    + right. split; [apply elem_of_cons; by right|done].
Qed.

Lemma existsb_id_elem (ident : string) (stations : list RadioStation) :
  existsb (fun s => String.eqb (id s) ident) stations = false → ident ∉ map id stations.
Proof.
  intros H Hin. apply list_elem_of_fmap in Hin as (s & -> & Hin).
  apply not_true_iff_false in H. apply H, existsb_exists.
  exists s. split; [by apply list_elem_of_In|apply String.eqb_refl].
Qed.

Lemma addStation_NoDup base station :
  NoDup (map id base) → NoDup (map id (addStation base station)).
Proof.
  intros H. unfold addStation.
  destruct (existsb (fun s => String.eqb (id s) (id station)) base) eqn:E; [done|].
  cbn [negb andb]. destruct (truthy (geoLat station) && truthy (geoLong station)); [|done].
  rewrite map_app. apply NoDup_app. split; [done|]. split.
  - intros x Hx Hx'. apply list_elem_of_singleton in Hx' as ->.
    by apply (existsb_id_elem _ _ E).
  - apply NoDup_singleton.
Qed.

Lemma fold_addStation_NoDup additional base :
  NoDup (map id base) → NoDup (map id (fold_left addStation additional base)).
Proof.
  revert base. induction additional as [|s l IH]; intros base H; cbn [fold_left]; [done|].
  by apply IH, addStation_NoDup.
Qed.

(** Every station of a run comes from the primary answer and passed the
    first filter, or was added by the merge after coordinate assignment. *)
Lemma run_elem limit σ stations σ' station :
  getRadioStationsWithGeoData api random limit σ = (Normal stations, σ') →
  station ∈ stations →
  ∃ stationsWithGeo,
    api (geoQuery (default 800 limit)) = Resolved stationsWithGeo
    ∧ ((station ∈ stationsWithGeo ∧ hasValidGeo station = true)
       ∨ (truthy (geoLat station) = true ∧ truthy (geoLong station) = true
          ∧ (station ∈ additionalStations api stationsWithGeo
             ∨ ∃ station0 b n, station0 ∈ additionalStations api stationsWithGeo
                 ∧ COUNTRY_BOUNDARIES !! countryCode station0 = Some b
                 ∧ station = synthesized station0 b (random n) (random (S n))))).
Proof.
  intros Hrun Hin.
  destruct (api (geoQuery (default 800 limit))) as [stationsWithGeo|reason] eqn:Hapi.
  - exists stationsWithGeo. split; [reflexivity|].
    destruct (run_resolved limit σ stationsWithGeo Hapi) as (σ1 & _ & _ & σ2 & _ & E).
    rewrite E in Hrun. injection Hrun as <- _.
    destruct (forM (assignCoordinates random) (additionalStations api stationsWithGeo) σ1)
      as [[additional|e] σ3] eqn:Hassign; [|by apply elem_of_nil in Hin].
    apply fold_addStation_elem in Hin as [Hin|(Hin & Hla & Hlo)].
    + left. apply list_elem_of_In, filter_In in Hin as [Hin Hv].
      split; [by apply list_elem_of_In|done].
    + right. split; [done|]. split; [done|].
      exact (forM_assignCoordinates_elem _ _ _ _ Hassign _ Hin).
  - destruct (run_rejected limit σ reason Hapi) as (σ2 & E & _).
    rewrite E in Hrun. injection Hrun as <- _. by apply elem_of_nil in Hin.
Qed.

Lemma run_elem_truthy limit σ stations σ' station :
  getRadioStationsWithGeoData api random limit σ = (Normal stations, σ') →
  station ∈ stations →
  truthy (geoLat station) = true ∧ truthy (geoLong station) = true.
Proof.
  intros Hrun Hin.
  destruct (run_elem _ _ _ _ _ Hrun Hin) as (l & _ & [[_ Hv]|(Hla & Hlo & _)]); [|done].
  unfold hasValidGeo in Hv. apply andb_prop in Hv as [Hv _].
  apply andb_prop in Hv as [Hv _]. by apply andb_prop in Hv.
Qed.

Lemma additionalStations_supplied stationsWithGeo station :
  station ∈ additionalStations api stationsWithGeo →
  ∃ q stations, api q = Resolved stations ∧ station ∈ stations.
Proof.
  unfold additionalStations. intros H.
  apply list_elem_of_In, in_concat in H as (l & Hl & Hin).
  apply list_elem_of_In in Hin. apply in_map_iff in Hl as (c & <- & _).
  unfold contribution in Hin.
  destruct (api (countryQuery (code c) 20)) as [stations|] eqn:E;
    [eauto | by apply elem_of_nil in Hin].
Qed.

(** *** The map over the supplementary stations *)

Lemma forM_cons {A B} (f : A -> Eff B) x l σ :
  forM f (x :: l) σ
  = match f x σ with
    | (Normal y, σ1) =>
        match forM f l σ1 with
        | (Normal ys, σ2) => (Normal (y :: ys), σ2)
        | (Abrupt e, σ2) => (Abrupt e, σ2)
        end
    | (Abrupt e, σ1) => (Abrupt e, σ1)
    end.
Proof.
  cbn [forM]. unfold mbind, Eff_bind at 1.
  destruct (f x σ) as [[y|e] σ1]; [|reflexivity].
  unfold mbind, Eff_bind. destruct (forM f l σ1) as [[ys|e] σ2]; reflexivity.
Qed.

(** Of the environment the callback reads the number of draws made, and
    nothing else. *)
Lemma assignCoordinates_draws station σ σ' :
  draws σ = draws σ' →
  fst (assignCoordinates random station σ) = fst (assignCoordinates random station σ')
  ∧ draws (snd (assignCoordinates random station σ))
    = draws (snd (assignCoordinates random station σ')).
Proof.
  intros H. unfold assignCoordinates. destruct (_ || _); [|done].
  unfold getRandomCoordinateForCountry.
  destruct (COUNTRY_BOUNDARIES !! countryCode station) as [b|].
  - unfold mbind, Eff_bind, Math_random, mret, Eff_ret. cbn [fst snd draws].
    rewrite H. done.
  - destruct (inherited (countryCode station)); done.
Qed.

Lemma forM_assignCoordinates_draws stations σ σ' :
  draws σ = draws σ' →
  fst (forM (assignCoordinates random) stations σ)
  = fst (forM (assignCoordinates random) stations σ').
Proof.
  revert σ σ'. induction stations as [|s l IH]; intros σ σ' H; [done|].
  rewrite !forM_cons.
  destruct (assignCoordinates_draws s σ σ' H) as [E D].
  destruct (assignCoordinates random s σ) as [[y|e] σ1],
           (assignCoordinates random s σ') as [[y'|e'] σ1'];
    cbn [fst snd] in E, D; try discriminate; [|cbn [fst]; congruence].
  injection E as ->. specialize (IH σ1 σ1' D).
  destruct (forM (assignCoordinates random) l σ1) as [[ys|e] σ2],
           (forM (assignCoordinates random) l σ1') as [[ys'|e'] σ2'];
    cbn [fst] in IH |- *; congruence.
Qed.

(** The result of a run, for every answer of the primary query. *)
Lemma run_result limit σ :
  fst (getRadioStationsWithGeoData api random limit σ)
  = Normal match api (geoQuery (default 800 limit)) with
           | Rejected _ => []
           | Resolved stationsWithGeo =>
               match forM (assignCoordinates random)
                       (additionalStations api stationsWithGeo) σ with
               | (Normal assigned, _) =>
                   fold_left addStation assigned (List.filter hasValidGeo stationsWithGeo)
               | (Abrupt _, _) => []
               end
           end.
Proof.
  destruct (api (geoQuery (default 800 limit))) as [P|reason] eqn:Hapi.
  - destruct (run_resolved limit σ P Hapi) as (σ1 & _ & D1 & σ' & _ & E).
    rewrite E. cbn [fst].
    pose proof (forM_assignCoordinates_draws (additionalStations api P) σ1 σ D1) as HF.
    destruct (forM (assignCoordinates random) (additionalStations api P) σ1)
      as [[assigned|e] σ2],
      (forM (assignCoordinates random) (additionalStations api P) σ)
      as [[assigned'|e'] σ2']; cbn [fst] in HF; congruence.
  - destruct (run_rejected limit σ reason Hapi) as (σ' & E & _). by rewrite E.
Qed.




(** The stations the callback leaves as they are and those it gives new
    coordinates. *)
Definition reassigned (station station' : RadioStation) : Prop :=
  station' = station
  ∨ (lacksCoordinates station = true
     ∧ ∃ la lo : Q, station' = with_coords station (Fin la) (Fin lo)).

Lemma forM_assignCoordinates_reassigned stations σ stations' σ' :
  forM (assignCoordinates random) stations σ = (Normal stations', σ') →
  Forall2 reassigned stations stations'.
Proof.
  revert σ stations'. induction stations as [|s l IH]; intros σ stations' H.
  - cbn in H. injection H as <- _. constructor.
  - apply forM_normal_cons in H as (y & ys & σ1 & Hy & Hys & ->).
    constructor; [|by eapply IH].
    destruct (lacksCoordinates s) eqn:Hl.
    + apply assignCoordinates_cases in Hy as [->|(b & n & Hb & ->)]; [by left|].
      right. split; [done|]. by eexists _, _.
    + rewrite assignCoordinates_keeps in Hy by done. injection Hy as <- _. by left.
Qed.

(** A traversal that raises met a station to be given coordinates whose
    country code names a member of [Object.prototype]. *)
Lemma forM_assignCoordinates_abrupt stations σ e σ' :
  forM (assignCoordinates random) stations σ = (Abrupt e, σ') →
  ∃ station, station ∈ stations
    ∧ lacksCoordinates station = true ∧ inherited (countryCode station) = true.
Proof.
  revert σ. induction stations as [|s l IH]; intros σ H; [discriminate|].
  rewrite forM_cons in H.
  destruct (assignCoordinates random s σ) as [[y|e1] σ1] eqn:Hs.
  - destruct (forM (assignCoordinates random) l σ1) as [[ys|e2] σ2] eqn:Hl; [discriminate|].
    injection H as <- <-.
    destruct (IH _ Hl) as (s0 & Hin & H0). exists s0. split; [|done].
    apply elem_of_cons. by right.
  - exists s. split; [apply elem_of_cons; by left|].
    destruct (lacksCoordinates s) eqn:El;
      [|rewrite assignCoordinates_keeps in Hs by done; discriminate].
    split; [done|].
    destruct (COUNTRY_BOUNDARIES !! countryCode s) as [b|] eqn:Eb;
      [rewrite (assignCoordinates_synthesizes _ _ b El Eb) in Hs; discriminate|].
    destruct (inherited (countryCode s)) eqn:Ei; [done|].
    rewrite assignCoordinates_no_bounds in Hs by done. discriminate.
Qed.

(** A station with truthy coordinates passes the map unchanged. *)
Lemma forM_assignCoordinates_kept stations σ stations' σ' station :
  forM (assignCoordinates random) stations σ = (Normal stations', σ') →
  station ∈ stations →
  truthy (geoLat station) = true → truthy (geoLong station) = true →
  station ∈ stations'.
Proof.
  intros H Hin Hla Hlo. revert σ stations' H.
  induction stations as [|s l IH]; intros σ stations' H; [by apply elem_of_nil in Hin|].
  apply forM_normal_cons in H as (y & ys & σ1 & Hy & Hys & ->).
  apply elem_of_cons in Hin as [<-|Hin].
  - rewrite assignCoordinates_keeps in Hy
      by (by rewrite lacksCoordinates_truthy, Hla, Hlo).
    injection Hy as <- _. apply elem_of_cons. by left.
  - apply elem_of_cons. right. by eapply IH.
Qed.

(** *** What the merge represents *)

Lemma addStation_ids base station i :
  i ∈ map id base → i ∈ map id (addStation base station).
Proof.
  intros H. unfold addStation. destruct (_ && _); [|done].
  rewrite map_app, elem_of_app. by left.
Qed.

Lemma fold_addStation_ids additional base i :
  i ∈ map id base → i ∈ map id (fold_left addStation additional base).
Proof.
  revert base. induction additional as [|s l IH]; intros base H; cbn [fold_left]; [done|].
  by apply IH, addStation_ids.
Qed.

Lemma addStation_covers base station :
  truthy (geoLat station) = true → truthy (geoLong station) = true →
  id station ∈ map id (addStation base station).
Proof.
  intros Hla Hlo. unfold addStation. rewrite Hla, Hlo.
  destruct (existsb (fun s => String.eqb (id s) (id station)) base) eqn:E; cbn [negb andb].
  - apply existsb_exists in E as (s & Hs & Heq). apply String.eqb_eq in Heq.
    apply list_elem_of_fmap. exists s. split; [done|]. by apply list_elem_of_In.
  - rewrite map_app, elem_of_app. right. cbn. apply elem_of_cons. by left.
Qed.

(** Every station handed to the merge with truthy coordinates is in the
    result, or a station with its identifier is. *)
Lemma fold_addStation_covers additional base station :
  station ∈ additional →
  truthy (geoLat station) = true → truthy (geoLong station) = true →
  id station ∈ map id (fold_left addStation additional base).
Proof.
  intros Hin Hla Hlo. revert base.
  induction additional as [|s l IH]; intros base; [by apply elem_of_nil in Hin|].
  cbn [fold_left]. apply elem_of_cons in Hin as [<-|Hin].
  - by apply fold_addStation_ids, addStation_covers.
  - by apply IH.
Qed.

End Facts.

(** A service that answers a country query with the empty array where
    [api] rejects it, and as [api] does otherwise. *)
Definition emptied (api : Query -> outcome (list RadioStation))
  : Query -> outcome (list RadioStation) :=
  fun q => match api q, q_countryCode q with
           | Rejected _, Some _ => Resolved []
           | answer, _ => answer
           end.

(** C7. The assembler never raises: whatever the directory service and the
    random generator do, a run completes normally with a sequence of
    stations.  A country query that is rejected completes normally with the
    empty array and a resolved one with its stations, and the joined
    country queries yield, country by country, exactly these
    contributions.  The returned sequence is empty when the primary query
    is rejected; otherwise it is the merge, into the primary entries that
    pass the filter, of the stations of the resolved country queries after
    the coordinate assignment (a rejected query standing for no station),
    and it is empty when that assignment raises.  So a run returns what it
    would return if every rejected country query had answered with the
    empty array, and a station with truthy coordinates that a resolved
    country query brings is represented in the returned sequence by its
    identifier, whatever the other queries did, unless the assignment
    raised for a country code that names a member of
    [Object.prototype]. *)
Theorem getRadioStationsWithGeoData_never_raises :
  ∀ (api : Query -> outcome (list RadioStation)) (random : nat -> Q)
    (limit : option nat) (σ : Env),
    (∃ stations σ',
        getRadioStationsWithGeoData api random limit σ = (Normal stations, σ'))
    ∧ (∀ countryCode limit' σ1,
          fst (getRadioStationsForCountry api countryCode limit' σ1)
          = Normal match api (countryQuery countryCode (default 50 limit')) with
                   | Resolved stations => stations
                   | Rejected _ => []
                   end)
    ∧ (∀ countries σ1,
          fst (forM (fun c => getRadioStationsForCountry api (code c) (Some 20)) countries σ1)
          = Normal (map (fun c => match api (countryQuery (code c) 20) with
                                  | Resolved stations => stations
                                  | Rejected _ => []
                                  end) countries))
    ∧ fst (getRadioStationsWithGeoData api random limit σ)
      = Normal
          match api (geoQuery (default 800 limit)) with
          | Rejected _ => []
          | Resolved stationsWithGeo =>
              match forM (assignCoordinates random)
                      (concat (map (fun c => match api (countryQuery (code c) 20) with
                                             | Resolved stations => stations
                                             | Rejected _ => []
                                             end)
                                 (underCovered stationsWithGeo))) σ with
              | (Normal assigned, _) =>
                  fold_left addStation assigned (List.filter hasValidGeo stationsWithGeo)
              | (Abrupt _, _) => []
              end
          end
    ∧ fst (getRadioStationsWithGeoData api random limit σ)
      = fst (getRadioStationsWithGeoData (emptied api) random limit σ)
    ∧ (∀ stationsWithGeo country supplied station,
          api (geoQuery (default 800 limit)) = Resolved stationsWithGeo →
          country ∈ underCovered stationsWithGeo →
          api (countryQuery (code country) 20) = Resolved supplied →
          station ∈ supplied →
          truthy (geoLat station) = true → truthy (geoLong station) = true →
          (∃ stations,
              fst (getRadioStationsWithGeoData api random limit σ) = Normal stations
              ∧ id station ∈ map id stations)
          ∨ (∃ raising,
                raising ∈ additionalStations api stationsWithGeo
                ∧ lacksCoordinates raising = true
                ∧ inherited (countryCode raising) = true)).
Proof.
  intros api random limit σ. split; [|split; [|split; [|split; [|split]]]].
  - unfold getRadioStationsWithGeoData. apply try_catch_normal.
    intros e σ1. eexists _, _. reflexivity.
  - intros cc limit' σ1.
    unfold getRadioStationsForCountry, try_catch, mbind, Eff_bind, searchStations.
    destruct (api (countryQuery cc (default 50 limit'))); reflexivity.
  - intros countries σ1.
    destruct (forM_countries api countries σ1) as (σ2 & E & _). rewrite E. reflexivity.
  - exact (run_result api random limit σ).
  - rewrite !run_result. f_equal. unfold emptied at 1. cbn [geoQuery q_countryCode].
    destruct (api (geoQuery (default 800 limit))) as [P|reason]; [|reflexivity].
    replace (additionalStations (emptied api) P) with (additionalStations api P);
      [reflexivity|].
    unfold additionalStations. f_equal. apply map_ext. intros c.
    unfold contribution, emptied. cbn [countryQuery q_countryCode].
    destruct (api (countryQuery (code c) 20)); reflexivity.
  - intros P c supplied station Hapi Hc Hq Hin Hla Hlo.
    assert (station ∈ additionalStations api P) as Hadd.
    { unfold additionalStations. apply list_elem_of_In, in_concat.
      exists supplied. split; [|by apply list_elem_of_In].
      apply in_map_iff. exists c. split; [|by apply list_elem_of_In].
      unfold contribution. by rewrite Hq. }
    rewrite run_result, Hapi.
    destruct (forM (assignCoordinates random) (additionalStations api P) σ)
      as [[assigned|e] σ2] eqn:E.
    + left. eexists. split; [reflexivity|].
      apply fold_addStation_covers; [|done|done].
      by apply (forM_assignCoordinates_kept random _ _ _ _ _ E).
    + right. exact (forM_assignCoordinates_abrupt random _ _ _ _ E).
Qed.

Lemma getRadioStationsWithGeoData_never_raises_witness :
  fst (getRadioStationsWithGeoData
         (Samples.service [Samples.paris] Samples.india_down_japan_up) Samples.half None Env0)
  = Normal [Samples.paris; Samples.tokyo].
Proof.
  destruct (getRadioStationsWithGeoData_never_raises
              (Samples.service [Samples.paris] Samples.india_down_japan_up) Samples.half
              None Env0) as (_ & _ & _ & E & _).
  rewrite E. vm_compute. reflexivity.
Defined.

(** C5. The count of a country is taken over the entries that passed the
    first filter, and that filter drops a coordinate that is the number 0.
    A primary answer with five stations of the United Kingdom on the prime
    meridian, each with valid coordinates, leaves the count of "GB" absent,
    and the country query for "GB" is issued; with the five stations a
    little west of the meridian it is not issued. *)
Theorem zero_coordinate_stations_are_not_counted :
  Forall validCoordinates Samples.greenwich_five
  ∧ NoDup (map id Samples.greenwich_five)
  ∧ length (List.filter (fun station => String.eqb (countryCode station) "GB")
              Samples.greenwich_five) = 5
  ∧ countryCounts (List.filter hasValidGeo Samples.greenwich_five) !! "GB" = None
  ∧ countryQuery "GB" 20
    ∈ queries (snd (getRadioStationsWithGeoData
                      (Samples.service Samples.greenwich_five Samples.nothing)
                      Samples.half None Env0))
  ∧ countryCounts (List.filter hasValidGeo Samples.london_five) !! "GB" = Some 5
  ∧ (countryQuery "GB" 20
     ∉ queries (snd (getRadioStationsWithGeoData
                       (Samples.service Samples.london_five Samples.nothing)
                       Samples.half None Env0))).
Proof.
  split; [|split; [|split; [|split; [|split; [|split]]]]].
  - apply Forall_forall. intros s Hs. cbn in Hs.
    repeat (apply elem_of_cons in Hs as [->|Hs];
            [split; eexists; (split; [reflexivity|]); unfold Qle; cbn; lia|]).
    by apply elem_of_nil in Hs.
  - cbn. repeat (apply NoDup_cons; split;
                 [intros H; repeat (apply elem_of_cons in H as [H|H]; [discriminate|]);
                  by apply elem_of_nil in H|]).
    apply NoDup_nil_2.
  - reflexivity.
  - vm_compute. reflexivity.
  - apply list_elem_of_In. vm_compute. do 3 right. left. reflexivity.
  - vm_compute. reflexivity.
  - intros H. apply list_elem_of_In in H. vm_compute in H.
    repeat (destruct H as [H|H]; [discriminate|]). exact H.
Qed.

(** X20. When the primary query resolves, the queries of a run are the
    primary query followed, in priority order, by one query of 20 stations
    for each priority country for which fewer than 5 entries of the primary
    answer pass the first filter and carry its code.  So a country query is
    issued if and only if it asks for 20 stations of such a country. *)
Theorem supplementary_query_iff_below_threshold :
  ∀ (api : Query -> outcome (list RadioStation)) (random : nat -> Q)
    (limit : option nat) (stationsWithGeo : list RadioStation),
    api (geoQuery (default 800 limit)) = Resolved stationsWithGeo →
    ∃ stations σ',
      getRadioStationsWithGeoData api random limit Env0 = (Normal stations, σ')
      ∧ queries σ'
        = geoQuery (default 800 limit)
          :: map (fun c => countryQuery (code c) 20)
               (List.filter (fun c => coverage stationsWithGeo (code c) <? 5)
                  IMPORTANT_COUNTRIES)
      ∧ ∀ countryCode limit',
          countryQuery countryCode limit' ∈ queries σ'
          ↔ limit' = 20
            ∧ countryCode ∈ map code IMPORTANT_COUNTRIES
            ∧ coverage stationsWithGeo countryCode < 5.
Proof.
  intros api random limit stationsWithGeo H.
  destruct (run_resolved api random limit Env0 stationsWithGeo H)
    as (σ1 & Q1 & _ & σ' & Q' & E).
  eexists _, σ'. split; [exact E|].
  assert (queries σ'
          = geoQuery (default 800 limit)
            :: map (fun c => countryQuery (code c) 20)
                 (List.filter (fun c => coverage stationsWithGeo (code c) <? 5)
                    IMPORTANT_COUNTRIES)) as HQ.
  { rewrite Q', Q1, underCovered_coverage. reflexivity. }
  split; [exact HQ|].
  intros cc lim. rewrite HQ, elem_of_cons, list_elem_of_fmap. split.
  - intros [Hgeo|(c & Hc & Hin)]; [discriminate|].
    injection Hc as -> ->.
    apply list_elem_of_In, filter_In in Hin as [Hin Hlt].
    split; [reflexivity|]. split.
    + apply list_elem_of_fmap. exists c. split; [reflexivity|]. by apply list_elem_of_In.
    + by apply Nat.ltb_lt.
  - intros (-> & Hin & Hlt). right.
    apply list_elem_of_fmap in Hin as (c & -> & Hin). exists c. split; [reflexivity|].
    apply list_elem_of_In, filter_In. split; [by apply list_elem_of_In|by apply Nat.ltb_lt].
Qed.

Lemma supplementary_query_iff_below_threshold_witness :
  ∃ stations σ',
    getRadioStationsWithGeoData
      (Samples.service (replicate 5 Samples.boston) Samples.nothing) Samples.half None Env0
    = (Normal stations, σ')
    ∧ queries σ'
      = geoQuery 800
        :: map (fun c => countryQuery (code c) 20)
             (List.filter
                (fun c => coverage (replicate 5 Samples.boston) (code c) <? 5)
                IMPORTANT_COUNTRIES).
Proof.
  destruct (supplementary_query_iff_below_threshold
              (Samples.service (replicate 5 Samples.boston) Samples.nothing) Samples.half
              None (replicate 5 Samples.boston) eq_refl)
    as (stations & σ' & E & HQ & _).
  exists stations, σ'. split; [exact E|exact HQ].
Defined.

(** C1, as the code has it. Every station of a run has a latitude and a
    longitude that are set and are not NaN.  No range is checked: the
    coordinates are finite and within [-90,90] x [-180,180] whenever the
    random draws lie in [0,1) and the directory service supplies only such
    coordinates on the stations whose coordinates it sets. *)
Theorem returned_stations_have_coordinates :
  ∀ (api : Query -> outcome (list RadioStation)) (random : nat -> Q)
    (limit : option nat) (σ : Env) stations σ',
    getRadioStationsWithGeoData api random limit σ = (Normal stations, σ') →
    (∀ station, station ∈ stations →
       ∃ x y, geoLat station = Some x ∧ geoLong station = Some y ∧ x ≠ NaN ∧ y ≠ NaN)
    ∧ ((∀ n, (0 <= random n < 1)%Q) →
       (∀ q supplied station,
           api q = Resolved supplied → station ∈ supplied →
           truthy (geoLat station) = true → truthy (geoLong station) = true →
           validCoordinates station) →
       ∀ station, station ∈ stations → validCoordinates station).
Proof.
  intros api random limit σ stations σ' Hrun. split.
  - intros station Hin.
    destruct (run_elem_truthy api random _ _ _ _ _ Hrun Hin) as [Hla Hlo].
    destruct (geoLat station) as [[x| | |]|], (geoLong station) as [[y| | |]|];
      try discriminate; eexists _, _; done.
  - intros Hr Hapi station Hin.
    destruct (run_elem api random _ _ _ _ _ Hrun Hin)
      as (l & Hl & [[Hinl Hv]|(Hla & Hlo & [Hadd|(s0 & b & n & Hadd & Hb & ->)])]).
    + unfold hasValidGeo in Hv. apply andb_prop in Hv as [Hv _].
      apply andb_prop in Hv as [Hv _]. apply andb_prop in Hv as [Hla Hlo].
      by apply (Hapi _ _ _ Hl Hinl).
    + apply additionalStations_supplied in Hadd as (q & l' & Hq & Hin').
      by apply (Hapi _ _ _ Hq Hin').
    + destruct (boxed_draw b (random n) (random (S n))
                  (COUNTRY_BOUNDARIES_boxes _ _ Hb) (Hr n) (Hr (S n)))
        as (_ & _ & H1 & H2).
      split; eexists; (split; [reflexivity|]); assumption.
Qed.

Lemma returned_stations_have_coordinates_witness :
  Forall validCoordinates
    [Samples.paris;
     with_coords Samples.tokyo_no_geo (Fin (38000000 # 1000000)) (Fin (137500000 # 1000000))].
Proof.
  apply Forall_forall. intros station Hin.
  refine (proj2 (returned_stations_have_coordinates
                   (Samples.service [Samples.paris] Samples.india_down) Samples.half
                   None Env0 _
                   (snd (getRadioStationsWithGeoData
                           (Samples.service [Samples.paris] Samples.india_down)
                           Samples.half None Env0)) _) _ _ station Hin).
  - vm_compute. reflexivity.
  - intros n. unfold Samples.half, Qle, Qlt. cbn. lia.
  - intros q supplied s Hq Hs Hla Hlo. unfold Samples.service in Hq.
    destruct (q_countryCode q) as [cc|].
    + unfold Samples.india_down in Hq.
      destruct (String.eqb cc "IN"); [discriminate|].
      destruct (String.eqb cc "JP"); injection Hq as <-.
      * apply list_elem_of_singleton in Hs as ->. discriminate.
      * by apply elem_of_nil in Hs.
    + injection Hq as <-. apply list_elem_of_singleton in Hs as ->.
      split; eexists; (split; [reflexivity|]); unfold Qle; cbn; lia.
Defined.

(** The claim C1 as stated fails: a station the primary query returns with
    latitude 1000 passes the filter and is returned. *)
Lemma out_of_range_latitude_is_returned :
  fst (getRadioStationsWithGeoData (Samples.service [Samples.far_north] Samples.nothing)
         Samples.half None Env0)
  = Normal [Samples.far_north]
  ∧ ¬ validCoordinates Samples.far_north.
Proof.
  split; [vm_compute; reflexivity|].
  intros [(q & [= <-] & _ & H) _]. revert H. unfold Qle. cbn. lia.
Qed.

(** C2, as the code has it. The merge never adds a station whose identifier
    is already present, so the identifiers of a run are pairwise distinct
    whenever those of the primary entries that pass the filter are. *)
Theorem identifiers_distinct_when_primary_distinct :
  ∀ (api : Query -> outcome (list RadioStation)) (random : nat -> Q)
    (limit : option nat) (σ : Env) stations σ',
    getRadioStationsWithGeoData api random limit σ = (Normal stations, σ') →
    (∀ stationsWithGeo,
        api (geoQuery (default 800 limit)) = Resolved stationsWithGeo →
        NoDup (map id (List.filter hasValidGeo stationsWithGeo))) →
    NoDup (map id stations).
Proof.
  intros api random limit σ stations σ' Hrun Hprimary.
  destruct (api (geoQuery (default 800 limit))) as [stationsWithGeo|reason] eqn:Hapi.
  - destruct (run_resolved api random limit σ stationsWithGeo Hapi)
      as (σ1 & _ & _ & σ2 & _ & E).
    rewrite E in Hrun. injection Hrun as <- _.
    destruct (forM (assignCoordinates random) (additionalStations api stationsWithGeo) σ1)
      as [[additional|e] σ3]; [|apply NoDup_nil_2].
    apply fold_addStation_NoDup, Hprimary. reflexivity.
  - destruct (run_rejected api random limit σ reason Hapi) as (σ2 & E & _).
    rewrite E in Hrun. injection Hrun as <- _. apply NoDup_nil_2.
Qed.

Lemma identifiers_distinct_when_primary_distinct_witness :
  NoDup (map id [Samples.paris;
                 with_coords Samples.tokyo_no_geo (Fin (38000000 # 1000000))
                   (Fin (137500000 # 1000000))]).
Proof.
  refine (identifiers_distinct_when_primary_distinct
            (Samples.service [Samples.paris] Samples.india_down) Samples.half None Env0 _
            (snd (getRadioStationsWithGeoData
                    (Samples.service [Samples.paris] Samples.india_down)
                    Samples.half None Env0)) _ _).
  - vm_compute. reflexivity.
  - intros stationsWithGeo [= <-]. cbn. apply NoDup_singleton.
Defined.

(** The claim C2 as stated fails: two entries of the primary answer with one
    identifier are both returned. *)
Lemma duplicate_primary_identifiers_are_returned :
  fst (getRadioStationsWithGeoData
         (Samples.service [Samples.paris; Samples.paris_again] Samples.nothing)
         Samples.half None Env0)
  = Normal [Samples.paris; Samples.paris_again]
  ∧ ¬ NoDup (map id [Samples.paris; Samples.paris_again]).
Proof.
  split; [vm_compute; reflexivity|].
  intros H. apply NoDup_cons in H as [H _]. apply H. cbn. apply elem_of_cons. by left.
Qed.

(** C4. The first filter tests the coordinates for truthiness, so it also
    drops an entry whose latitude is the number 0: a station on the equator
    with finite, in-range coordinates is not returned. *)
Theorem zero_latitude_is_discarded :
  validCoordinates Samples.quito
  ∧ isNaN (geoLat Samples.quito) = false ∧ isNaN (geoLong Samples.quito) = false
  ∧ hasValidGeo Samples.quito = false
  ∧ fst (getRadioStationsWithGeoData
           (Samples.service [Samples.quito; Samples.paris] Samples.nothing)
           Samples.half None Env0)
    = Normal [Samples.paris].
Proof.
  split.
  { split; eexists; (split; [reflexivity|]); unfold Qle; cbn; lia. }
  repeat split; vm_compute; reflexivity.
Qed.



(** A sample run: India's query is rejected; Japan's station is still
    fetched, given coordinates and returned after the primary one. *)
Example india_down_japan_served :
  fst (getRadioStationsWithGeoData
         (Samples.service [Samples.paris] Samples.india_down) Samples.half None Env0)
  = Normal [Samples.paris;
            with_coords Samples.tokyo_no_geo (Fin (38000000 # 1000000))
              (Fin (137500000 # 1000000))].
Proof. vm_compute. reflexivity. Qed.

End radioServiceProofs.

(** ** Properties of the audio player *)

Module AudioPlayerProofs.
Import AudioPlayer.

(** *** The effects, field by field *)

Ltac setters :=
  unfold call, newHowl, setSoundRef, setIsLoading, setIsPlaying, setError, setVolume,
    setStation in *; cbn in *.

Lemma release_spec c :
  release c
  = {| station := station c; isPlaying := isPlaying c; volume := volume c;
       isLoading := isLoading c; error := error c; soundRef := None;
       mounted := mounted c; howls := howls c ++ teardown c; created := created c |}.
Proof.
  destruct c as [st pl v ld er [h|] m hs n]; unfold release, teardown; cbn;
    rewrite ?app_nil_r; reflexivity.
Qed.

Lemma stationEffect_spec c :
  stationEffect c
  = {| station := station c; isPlaying := false; volume := volume c;
       isLoading := if stream (station c) is Some _ then true else isLoading c;
       error := None;
       soundRef := if stream (station c) is Some _ then Some (created c) else None;
       mounted := mounted c;
       howls := howls c ++ teardown c ++ startup c (station c);
       created := if stream (station c) is Some _ then S (created c) else created c |}.
Proof.
  destruct c as [[st|] pl v ld er [h|] m hs n];
    unfold stationEffect, release, startup, stream, teardown; cbn;
    try destruct (truthy_string (url st)); cbn;
    unfold call, newHowl, setSoundRef, setIsLoading, setIsPlaying, setError; cbn;
    rewrite <- ?app_assoc, ?app_nil_r; reflexivity.
Qed.

Lemma render_same st c :
  dep (station c) = dep st → render st c = setStation st c.
Proof. intros H. unfold render. by rewrite decide_True. Qed.


Lemma render_changed st c :
  dep (station c) ≠ dep st →
  render st c
  = {| station := st; isPlaying := false; volume := volume c;
       isLoading := if stream st is Some _ then true else isLoading c;
       error := None;
       soundRef := if stream st is Some _ then Some (created c) else None;
       mounted := mounted c;
       howls := howls c ++ teardown c ++ startup c st;
       created := if stream st is Some _ then S (created c) else created c |}.
Proof.
  intros H. unfold render. rewrite decide_False by done.
  rewrite stationEffect_spec, release_spec. setters.
  unfold teardown at 2, startup. cbn. rewrite <- !app_assoc. reflexivity.
Qed.

Lemma handleVolumeChange_spec v c :
  handleVolumeChange v c
  = if Qeq_bool v (volume c) then c
    else {| station := station c; isPlaying := isPlaying c; volume := v;
            isLoading := isLoading c; error := error c; soundRef := soundRef c;
            mounted := mounted c;
            howls := howls c ++ match soundRef c with
                                | Some h => [Volume h v]
                                | None => []
                                end;
            created := created c |}.
Proof.
  destruct c as [st pl v0 ld er [h|] m hs n];
    unfold handleVolumeChange, volumeEffect, setVolume, call; cbn;
    destruct (Qeq_bool v v0); rewrite ?app_nil_r; reflexivity.
Qed.

(** *** Live Howls *)

Lemma live_snoc calls k : live (calls ++ [k]) = after_call (live calls) k.
Proof. unfold live. by rewrite fold_left_app. Qed.

Lemma live_app calls ks : live (calls ++ ks) = fold_left after_call ks (live calls).
Proof. unfold live. by rewrite fold_left_app. Qed.

Lemma requestedVolume_snoc calls k h :
  requestedVolume (calls ++ [k]) h = requested_after h (requestedVolume calls h) k.
Proof. unfold requestedVolume. by rewrite fold_left_app. Qed.

Lemma prefix_snoc_inv {A} (p l : list A) x :
  p `prefix_of` l ++ [x] → p `prefix_of` l ∨ p = l ++ [x].
Proof.
  intros [k Hk]. destruct k as [|y k _] using rev_ind.
  - right. by rewrite app_nil_r in Hk.
  - left. rewrite app_assoc in Hk. apply app_inj_tail in Hk as [-> _]. by exists k.
Qed.

Lemma exclusive_snoc calls k :
  exclusive calls → length (live (calls ++ [k])) ≤ 1 → exclusive (calls ++ [k]).
Proof.
  intros H Hk p Hp. apply prefix_snoc_inv in Hp as [Hp| ->]; [by apply H|done].
Qed.

Lemma exclusive_nil : exclusive [].
Proof. intros p Hp. apply prefix_nil_inv in Hp as ->. unfold live. cbn. lia. Qed.

(** *** Consistency of the ref with the library *)

Lemma live_teardown calls r :
  live calls = option_list r →
  live (calls ++ match r with Some h => [Unload h] | None => [] end) = [].
Proof.
  intros H. destruct r as [h|]; cbn in H.
  - rewrite live_snoc, H. cbn. by rewrite Nat.eqb_refl.
  - by rewrite app_nil_r.
Qed.

Lemma exclusive_teardown calls r :
  live calls = option_list r → exclusive calls →
  exclusive (calls ++ match r with Some h => [Unload h] | None => [] end).
Proof.
  intros H Hex. pose proof (live_teardown calls r H) as Hl.
  destruct r as [h|]; [|by rewrite app_nil_r].
  apply exclusive_snoc; [done|]. rewrite Hl. cbn. lia.
Qed.

Lemma live_startup calls n src v :
  live calls = [] → live (calls ++ [New n src v; Play n]) = [n].
Proof. intros H. rewrite live_app, H. reflexivity. Qed.

Lemma exclusive_startup calls n src v :
  live calls = [] → exclusive calls → exclusive (calls ++ [New n src v; Play n]).
Proof.
  intros H Hex.
  change [New n src v; Play n] with ([New n src v] ++ [Play n]). rewrite app_assoc.
  assert (live (calls ++ [New n src v]) = [n]) as H1 by (rewrite live_snoc, H; reflexivity).
  apply exclusive_snoc; [apply exclusive_snoc; [done|by rewrite H1]|].
  by rewrite live_snoc, H1.
Qed.

Lemma stream_dep st st' : dep st = dep st' → stream st = stream st'.
Proof.
  destruct st as [s|], st' as [s'|]; cbn; try discriminate; [|done].
  by intros [= ->].
Qed.

Lemma consistent_release c : consistent c → consistent (release c).
Proof.
  intros [Hl Hex Hc Hs Hv]. rewrite release_spec. unfold teardown.
  split; cbn; try discriminate.
  - by apply live_teardown.
  - by apply exclusive_teardown.
Qed.

Lemma consistent_fresh c st :
  mounted c = true → soundRef c = None → consistent c →
  consistent (stationEffect (setStation st c)).
Proof.
  intros Hm Hr [Hl Hex Hc Hs Hv]. rewrite stationEffect_spec. setters.
  unfold teardown, startup. cbn. rewrite Hr in *. cbn in *.
  destruct (stream st) as [src|] eqn:E; split; cbn; try discriminate;
    rewrite ?app_nil_r; try done.
  - by apply live_startup.
  - by apply exclusive_startup.
  - intros h [= <-]. lia.
  - intros h [= <-]. exists (volume c). split; [|reflexivity].
    change [New (created c) src (volume c); Play (created c)]
      with ([New (created c) src (volume c)] ++ [Play (created c)]).
    rewrite app_assoc, !requestedVolume_snoc. cbn. by rewrite Nat.eqb_refl.
Qed.

Lemma consistent_mount st : consistent (mount st).
Proof.
  unfold mount.
  set (c0 := {| station := None; isPlaying := false; volume := 0.75; isLoading := false;
                error := None; soundRef := None; mounted := true; howls := [];
                created := 0 |}).
  assert (consistent c0) as H0.
  { split; cbn; try discriminate; [done|apply exclusive_nil]. }
  pose proof (consistent_fresh c0 st eq_refl eq_refl H0) as H1.
  change (setStation st c0) with
    {| station := st; isPlaying := false; volume := 0.75; isLoading := false;
       error := None; soundRef := None; mounted := true; howls := [];
       created := 0 |} in H1.
  set (c1 := stationEffect _) in *. clearbody c1. clear c0 H0.
  unfold volumeEffect.
  destruct (soundRef c1) as [h|] eqn:Hr; [|exact H1].
  destruct H1 as [Hl Hex Hc Hs Hv].
  split; setters; rewrite ?Hr in *.
  - by rewrite live_snoc, Hl.
  - apply exclusive_snoc; [done|]. rewrite live_snoc, Hl. cbn. lia.
  - done.
  - done.
  - intros h' [= <-]. eexists. split; [|reflexivity].
    rewrite requestedVolume_snoc. cbn. by rewrite Nat.eqb_refl.
Qed.

Lemma consistent_render st c :
  mounted c = true → consistent c → consistent (render st c).
Proof.
  intros Hm H. unfold render. destruct (decide (dep (station c) = dep st)) as [E|E].
  - destruct H as [Hl Hex Hc Hs Hv]. split; setters; try done.
    intros h Hh. rewrite <- (stream_dep _ _ E). by apply (Hs h).
  - pose proof (consistent_release _ H) as H1.
    assert (release (setStation st c) = setStation st (release c)) as ->.
    { rewrite !release_spec. reflexivity. }
    apply consistent_fresh; [by rewrite release_spec | by rewrite release_spec | done].
Qed.

Lemma consistent_handleVolumeChange v c :
  consistent c → consistent (handleVolumeChange v c).
Proof.
  intros [Hl Hex Hc Hs Hv]. unfold handleVolumeChange.
  destruct (Qeq_bool v (volume c)); [by split|].
  unfold volumeEffect. setters.
  destruct (soundRef c) as [h|] eqn:Hr; split; setters; rewrite ?Hr; try done.
  - by rewrite live_snoc, Hl.
  - apply exclusive_snoc; [done|]. rewrite live_snoc, Hl. cbn. lia.
  - intros h' [= <-]. eexists. split; [|reflexivity].
    rewrite requestedVolume_snoc. cbn. by rewrite Nat.eqb_refl.
Qed.

Lemma consistent_togglePlayPause c : consistent c → consistent (togglePlayPause c).
Proof.
  intros [Hl Hex Hc Hs Hv]. unfold togglePlayPause.
  destruct (soundRef c) as [h|] eqn:Hr; [|by split; rewrite ?Hr].
  destruct (isPlaying c); split; setters; rewrite ?Hr; try done;
    try (by rewrite live_snoc, Hl);
    try (apply exclusive_snoc; [done|]; rewrite live_snoc, Hl; cbn; lia);
    intros h' [= <-]; rewrite requestedVolume_snoc; cbn; by apply Hv.
Qed.

Lemma consistent_fire cb c : consistent c → consistent (fire cb c).
Proof. intros [Hl Hex Hc Hs Hv]. destruct cb; split; setters; done. Qed.

Lemma consistent_unmount c : consistent c → consistent (unmount c).
Proof.
  intros H. apply consistent_release in H as [Hl Hex Hc Hs Hv].
  unfold unmount. rewrite release_spec in *. split; cbn in *; try done.
Qed.

Lemma consistent_step e c : consistent c → consistent (step e c).
Proof.
  intros H. unfold step. destruct (mounted c) eqn:Hm; [|done].
  destruct e as [st|v| |h cb|].
  - by apply consistent_render.
  - destruct (station c); [by apply consistent_handleVolumeChange|done].
  - destruct (station c); [|done].
    destruct (isLoading c); [done|by apply consistent_togglePlayPause].
  - destruct (h <? created c); [by apply consistent_fire|done].
  - by apply consistent_unmount.
Qed.

Lemma reachable_consistent c : reachable c → consistent c.
Proof.
  induction 1 as [st|e c _ IH]; [apply consistent_mount|by apply consistent_step].
Qed.

(** *** Frame lemmas *)

Lemma step_volume e c :
  (∀ v, e ≠ ChangeVolume v) → volume (step e c) = volume c.
Proof.
  intros He. unfold step. destruct (mounted c); [|done].
  destruct e as [st|v| |h cb|].
  - unfold render. destruct (decide _); [done|by rewrite stationEffect_spec, release_spec].
  - by destruct (He v).
  - destruct (station c); [|done]. destruct (isLoading c); [done|].
    unfold togglePlayPause. destruct (soundRef c); [|done]. by destruct (isPlaying c).
  - destruct (h <? created c); [|done]. by destruct cb.
  - unfold unmount. by rewrite release_spec.
Qed.

Lemma run_volume events c :
  Forall (fun e => ∀ v, e ≠ ChangeVolume v) events → volume (run events c) = volume c.
Proof.
  intros H. revert c. induction H as [|e es He _ IH]; intros c; [done|].
  cbn. fold (run es (step e c)). by rewrite IH, step_volume.
Qed.

Lemma reachable_run events c : reachable c → reachable (run events c).
Proof.
  revert c. induction events as [|e es IH]; intros c H; [done|].
  cbn. apply IH. by constructor.
Qed.

Lemma old_handle_not_live c h st :
  consistent c → mounted c = true → soundRef c = Some h → dep st ≠ dep (station c) →
  h ∉ live (howls (step (Render st) c)).
Proof.
  intros Hc Hm Hr Hd.
  assert (consistent (step (Render st) c)) as [Hl _ _ _ _] by by apply consistent_step.
  rewrite Hl. unfold step. rewrite Hm, render_changed by done. cbn.
  pose proof (ref_created c Hc h Hr).
  destruct (stream st); cbn; [|apply not_elem_of_nil].
  intros Hin%list_elem_of_singleton. lia.
Qed.

(** C3, as the code has it. The first effect is keyed on the stream URL.
    In every state the player can reach, the calls made on the audio
    library never left two Howls live at once and the live Howl is the one
    in [soundRef].  When a render changes [station?.url], the player shows
    the new station, unloads the current Howl first (if any) and only then
    creates and plays a Howl for the new stream (if the new station has
    one), so the previous Howl is no longer live; this includes the change
    to no station.  Unmounting unloads the current Howl and leaves none
    live. *)
Theorem session_exclusive_on_stream_change :
  ∀ c, reachable c →
    exclusive (howls c)
    ∧ live (howls c) = option_list (soundRef c)
    ∧ (mounted c = true →
       (∀ st, dep st ≠ dep (station c) →
          station (step (Render st) c) = st
          ∧ howls (step (Render st) c) = howls c ++ teardown c ++ startup c st
          ∧ soundRef (step (Render st) c)
            = (if stream st is Some _ then Some (created c) else None)
          ∧ ∀ h, soundRef c = Some h → h ∉ live (howls (step (Render st) c)))
       ∧ howls (step Unmount c) = howls c ++ teardown c
       ∧ soundRef (step Unmount c) = None
       ∧ live (howls (step Unmount c)) = []).
Proof.
  intros c Hreach. pose proof (reachable_consistent c Hreach) as Hc.
  split; [apply Hc|]. split; [apply Hc|]. intros Hm. split.
  - intros st Hd. split; [|split; [|split]].
    + unfold step. rewrite Hm, render_changed by done. reflexivity.
    + unfold step. rewrite Hm, render_changed by done. reflexivity.
    + unfold step. rewrite Hm, render_changed by done. reflexivity.
    + intros h Hr. by apply old_handle_not_live.
  - assert (consistent (step Unmount c)) as [Hl _ _ _ _] by by apply consistent_step.
    revert Hl. unfold step. rewrite Hm. unfold unmount. rewrite release_spec. cbn.
    intros ->. done.
Qed.

Lemma session_exclusive_on_stream_change_witness :
  howls (step (Render (Some Samples.tokyo)) (mount (Some Samples.paris)))
  = [New 0 "https://stream.example/fr-1" 0.75; Play 0; Volume 0 0.75;
     Unload 0; New 1 "https://stream.example/jp-2" 0.75; Play 1]
  ∧ 0 ∉ live (howls (step (Render (Some Samples.tokyo)) (mount (Some Samples.paris)))).
Proof.
  destruct (session_exclusive_on_stream_change (mount (Some Samples.paris))
              (reachable_mount _)) as (_ & _ & H).
  destruct (H eq_refl) as [H1 _].
  destruct (H1 (Some Samples.tokyo)) as (_ & H2 & _ & H3); [discriminate|].
  split; [exact H2|exact (H3 0 eq_refl)].
Defined.

(** The claim C3 as stated fails: the page switches from one station to a
    different station with the same stream URL; the player shows the new
    station, but the Howl of the previous one is neither unloaded nor
    replaced. *)
Lemma same_stream_switch_releases_nothing :
  Samples.paris ≠ Samples.paris_relisted
  ∧ station (step (Render (Some Samples.paris_relisted)) (mount (Some Samples.paris)))
    = Some Samples.paris_relisted
  ∧ soundRef (mount (Some Samples.paris)) = Some 0
  ∧ (Unload 0
     ∉ howls (step (Render (Some Samples.paris_relisted)) (mount (Some Samples.paris))))
  ∧ live (howls (step (Render (Some Samples.paris_relisted)) (mount (Some Samples.paris))))
    = [0].
Proof.
  split; [discriminate|]. split; [reflexivity|]. split; [reflexivity|].
  split; [|reflexivity].
  intros H. cbn in H. repeat (apply elem_of_cons in H as [H|H]; [discriminate|]).
  by apply elem_of_nil in H.
Qed.

(** C8, as the code has it. Selecting a station with another stream resets
    what the player shows to not playing, loading, no error.  The callbacks
    carry no mark of the session that registered them: a callback of the
    previous, unloaded Howl that fires after the selection acts exactly like
    the same callback of the new Howl and changes what is shown ([onload]
    clears the loading flag, [onplay] also sets playing, the two error
    callbacks set their message, [onstop] and [onend] clear playing).  The
    player shows the new session alone only as long as the audio library
    fires nothing for an unloaded Howl. *)
Theorem late_callback_is_applied :
  ∀ c h st src cb,
    reachable c → mounted c = true → soundRef c = Some h →
    dep st ≠ dep (station c) → stream st = Some src →
    (h ∉ live (howls (step (Render st) c)))
    ∧ soundRef (step (Render st) c) = Some (created c)
    ∧ visible (step (Render st) c) = (false, true, None)
    ∧ step (Fire h cb) (step (Render st) c) = step (Fire (created c) cb) (step (Render st) c)
    ∧ visible (step (Fire h cb) (step (Render st) c))
      = match cb with
        | onplay => (true, false, None)
        | onload => (false, false, None)
        | onloaderror => (false, false, Some "Failed to load station")
        | onplayerror => (false, false, Some "Failed to play station")
        | onstop | onend => (false, true, None)
        end.
Proof.
  intros c h st src cb Hreach Hm Hr Hd Hs.
  pose proof (reachable_consistent c Hreach) as Hc.
  pose proof (ref_created c Hc h Hr) as Hlt.
  split; [by apply old_handle_not_live|].
  assert (step (Render st) c = render st c) as -> by (unfold step; by rewrite Hm).
  rewrite render_changed by done. rewrite Hs.
  split; [reflexivity|]. split; [reflexivity|].
  unfold step. cbn [mounted created]. rewrite Hm.
  assert ((h <? S (created c)) = true) as -> by (apply Nat.ltb_lt; lia).
  assert ((created c <? S (created c)) = true) as -> by (apply Nat.ltb_lt; lia).
  split; [reflexivity|]. by destruct cb.
Qed.

Lemma late_callback_is_applied_witness :
  visible (step (Fire 0 onloaderror)
             (step (Render (Some Samples.tokyo)) (mount (Some Samples.paris))))
  = (false, false, Some "Failed to load station").
Proof.
  refine (proj2 (proj2 (proj2 (proj2
            (late_callback_is_applied (mount (Some Samples.paris)) 0 (Some Samples.tokyo)
               "https://stream.example/jp-2" onloaderror (reachable_mount _)
               eq_refl eq_refl _ eq_refl))))).
  discriminate.
Defined.

(** The claim C8 as stated fails: the first station's Howl 0 is unloaded and
    the second station's Howl 1 is loading and has fired nothing; when
    [onload] of Howl 0 fires, the loading flag shown for the second station
    is cleared. *)
Lemma late_onload_clears_loading_flag :
  let selected := step (Render (Some Samples.tokyo)) (mount (Some Samples.paris)) in
  station selected = Some Samples.tokyo
  ∧ soundRef selected = Some 1
  ∧ live (howls selected) = [1]
  ∧ isLoading selected = true
  ∧ isLoading (step (Fire 0 onload) selected) = false
  ∧ visible (step (Fire 0 onload) selected) ≠ visible selected.
Proof. cbv zeta. repeat split; try reflexivity. discriminate. Qed.

(** C9. While a session exists, moving the slider to [v] gives [v] to the
    current Howl at once, whatever the player shows (the call [volume(v)]
    is made unless [v] is the value the state and the Howl already have),
    and [v] is the volume of the state from then on: after any events
    other than a further move of the slider, the Howl created for the next
    stream is created with volume [v]. *)
Theorem volume_applied_and_kept :
  ∀ c h v,
    reachable c → mounted c = true → soundRef c = Some h →
    soundRef (step (ChangeVolume v) c) = Some h
    ∧ howls (step (ChangeVolume v) c)
      = howls c ++ (if Qeq_bool v (volume c) then [] else [Volume h v])
    ∧ (∃ v1, requestedVolume (howls (step (ChangeVolume v) c)) h = Some v1 ∧ (v1 == v)%Q)
    ∧ (volume (step (ChangeVolume v) c) == v)%Q
    ∧ ∀ events st src,
        Forall (fun e => ∀ v', e ≠ ChangeVolume v') events →
        mounted (run events (step (ChangeVolume v) c)) = true →
        dep st ≠ dep (station (run events (step (ChangeVolume v) c))) →
        stream st = Some src →
        ∃ v2,
          howls (step (Render st) (run events (step (ChangeVolume v) c)))
          = howls (run events (step (ChangeVolume v) c))
            ++ teardown (run events (step (ChangeVolume v) c))
            ++ [New (created (run events (step (ChangeVolume v) c))) src v2;
                Play (created (run events (step (ChangeVolume v) c)))]
          ∧ (v2 == v)%Q.
Proof.
  intros c h v Hreach Hm Hr.
  pose proof (reachable_consistent c Hreach) as Hc.
  destruct (ref_stream c Hc h Hr) as [_ [src0 Hsrc]].
  destruct (ref_volume c Hc h Hr) as (v0 & Hv0 & Hv0').
  assert (step (ChangeVolume v) c = handleVolumeChange v c) as Hstep.
  { unfold step. rewrite Hm. destruct (station c); [done|discriminate]. }
  rewrite Hstep, handleVolumeChange_spec, Hr.
  destruct (Qeq_bool v (volume c)) eqn:E.
  - apply Qeq_bool_eq in E.
    split; [done|]. split; [by rewrite app_nil_r|].
    split; [exists v0; split; [done|by rewrite Hv0', E]|].
    split; [by symmetry|].
    intros events st src Hev Hm2 Hd Hs.
    exists (volume (run events c)). split.
    + assert (step (Render st) (run events c) = render st (run events c)) as ->
        by (unfold step; by rewrite Hm2).
      rewrite render_changed by done. cbn. unfold startup. rewrite Hs. reflexivity.
    + rewrite run_volume by done. by symmetry.
  - set (c1 := {| station := station c; isPlaying := isPlaying c; volume := v;
                  isLoading := isLoading c; error := error c; soundRef := Some h;
                  mounted := mounted c; howls := howls c ++ [Volume h v];
                  created := created c |}).
    split; [done|]. split; [done|].
    split; [exists v; split; [|reflexivity]|].
    { cbn. rewrite requestedVolume_snoc. cbn. by rewrite Nat.eqb_refl. }
    split; [reflexivity|].
    intros events st src Hev Hm2 Hd Hs.
    exists (volume (run events c1)). split.
    + assert (step (Render st) (run events c1) = render st (run events c1)) as ->
        by (unfold step; by rewrite Hm2).
      rewrite render_changed by done. cbn. unfold startup. rewrite Hs. reflexivity.
    + by rewrite run_volume.
Qed.

Lemma volume_applied_and_kept_witness :
  howls (step (Render (Some Samples.tokyo))
           (run [Fire 0 onloaderror] (step (ChangeVolume 0.3) (mount (Some Samples.paris)))))
  = [New 0 "https://stream.example/fr-1" 0.75; Play 0; Volume 0 0.75; Volume 0 0.3;
     Unload 0; New 1 "https://stream.example/jp-2" 0.3; Play 1].
Proof.
  destruct (volume_applied_and_kept (mount (Some Samples.paris)) 0 0.3
              (reachable_mount _) eq_refl eq_refl) as (_ & _ & _ & _ & H).
  destruct (H [Fire 0 onloaderror] (Some Samples.tokyo) "https://stream.example/jp-2")
    as (v2 & E & _); [|reflexivity| |reflexivity| ].
  - repeat constructor; discriminate.
  - discriminate.
  - reflexivity.
Defined.

(** C10. A render whose station has the stream URL of the station shown
    before, be it another station, changes only the station shown: no call
    is made on the audio library and the ref, the playback state, the
    loading flag, the error and the volume stay as they are.  A render
    whose station has another URL ends the session and starts one: the
    first effect is keyed on the URL alone. *)
Theorem same_stream_keeps_session :
  ∀ c a b,
    mounted c = true → station c = Some a →
    (url b = url a →
       step (Render (Some b)) c = setStation (Some b) c
       ∧ station (step (Render (Some b)) c) = Some b
       ∧ howls (step (Render (Some b)) c) = howls c
       ∧ soundRef (step (Render (Some b)) c) = soundRef c
       ∧ visible (step (Render (Some b)) c) = visible c
       ∧ volume (step (Render (Some b)) c) = volume c)
    ∧ (url b ≠ url a →
       howls (step (Render (Some b)) c) = howls c ++ teardown c ++ startup c (Some b)).
Proof.
  intros c a b Hm Ha. split; intros Hu.
  - assert (step (Render (Some b)) c = setStation (Some b) c) as ->.
    { unfold step. rewrite Hm. apply render_same. rewrite Ha. cbn. by rewrite Hu. }
    done.
  - unfold step. rewrite Hm, render_changed; [done|].
    rewrite Ha. cbn. congruence.
Qed.

Lemma same_stream_keeps_session_witness :
  howls (step (Render (Some Samples.paris_relisted)) (mount (Some Samples.paris)))
  = howls (mount (Some Samples.paris))
  ∧ soundRef (step (Render (Some Samples.paris_relisted)) (mount (Some Samples.paris)))
    = Some 0.
Proof.
  destruct (proj1 (same_stream_keeps_session (mount (Some Samples.paris)) Samples.paris
                     Samples.paris_relisted eq_refl eq_refl) eq_refl)
    as (_ & _ & H1 & H2 & _).
  split; [exact H1|exact H2].
Defined.

End AudioPlayerProofs.

(** ** Further properties of the station service *)

Module radioServiceMore.
Import radioService radioServiceProofs.

Section Facts.

Variable api : Query -> outcome (list RadioStation).
Variable random : nat -> Q.

(** The console line of a country whose query is rejected. *)
Definition failure (c : Country) : list (string * string) :=
  match api (countryQuery (code c) 20) with
  | Resolved _ => []
  | Rejected reason => [("Error fetching radio stations for " +:+ code c +:+ ":", reason)]
  end.

(** No station that is to be given coordinates carries a country code found
    on [Object.prototype]. *)
Definition plain (stations : list RadioStation) : Prop :=
  Forall (fun s => lacksCoordinates s = true → inherited (countryCode s) = false) stations.

(** Two stations that differ at most in their coordinates. *)
Definition same_entry (s s0 : RadioStation) : Prop :=
  id s = id s0 ∧ name s = name s0 ∧ url s = url s0 ∧ favicon s = favicon s0
  ∧ countryCode s = countryCode s0 ∧ country s = country s0 ∧ state s = state s0
  ∧ language s = language s0 ∧ codec s = codec s0 ∧ bitrate s = bitrate s0
  ∧ votes s = votes s0.

Lemma forM_countries_console (countries : list Country) σ :
  console (snd (forM (fun c => getRadioStationsForCountry api (code c) (Some 20)) countries σ))
  = console σ ++ flat_map failure countries.
Proof.
  revert σ. induction countries as [|c cs IH]; intros σ.
  - cbn. by rewrite app_nil_r.
  - cbn [forM flat_map]. unfold mbind, Eff_bind at 1.
    assert (∃ σ1, getRadioStationsForCountry api (code c) (Some 20) σ
                  = (Normal (contribution api (code c) 20), σ1)
                  ∧ console σ1 = console σ ++ failure c) as (σ1 & E1 & C1).
    { unfold getRadioStationsForCountry, try_catch, mbind, Eff_bind, searchStations,
        contribution, failure.
      change (default 50 (Some 20)) with 20.
      destruct (api (countryQuery (code c) 20)); eexists; (split; [reflexivity|]); cbn;
        by rewrite ?app_nil_r. }
    rewrite E1. unfold mbind, Eff_bind at 1.
    specialize (IH σ1).
    destruct (forM _ cs σ1) as [[ys|e] σ2]; cbn in IH |- *;
      rewrite IH, C1, <- app_assoc; reflexivity.
Qed.

Lemma assignCoordinates_console station σ :
  console (snd (assignCoordinates random station σ)) = console σ.
Proof.
  unfold assignCoordinates. destruct (_ || _); [|reflexivity].
  unfold mbind, Eff_bind, getRandomCoordinateForCountry.
  destruct (COUNTRY_BOUNDARIES !! countryCode station); [reflexivity|].
  destruct (inherited (countryCode station)); reflexivity.
Qed.

Lemma forM_assignCoordinates_console stations σ :
  console (snd (forM (assignCoordinates random) stations σ)) = console σ.
Proof.
  apply (forM_env_inv (fun σ' => console σ' = console σ)); [|reflexivity].
  intros x σ1 H. by rewrite assignCoordinates_console.
Qed.

(** A run whose primary query resolves, with the whole environment. *)
Lemma run_resolved_env limit σ stationsWithGeo :
  api (geoQuery (default 800 limit)) = Resolved stationsWithGeo →
  ∃ σ1,
    queries σ1 = queries σ ++ geoQuery (default 800 limit)
                   :: map (fun c => countryQuery (code c) 20) (underCovered stationsWithGeo)
    ∧ console σ1 = console σ ++ flat_map failure (underCovered stationsWithGeo)
    ∧ getRadioStationsWithGeoData api random limit σ
      = match forM (assignCoordinates random) (additionalStations api stationsWithGeo) σ1 with
        | (Normal additional, σ2) =>
            (Normal (fold_left addStation additional
                       (List.filter hasValidGeo stationsWithGeo)), σ2)
        | (Abrupt e, σ2) =>
            (Normal [],
             {| draws := draws σ2; queries := queries σ2;
                console := console σ2 ++ [("Error fetching radio stations:", e)] |})
        end.
Proof.
  intros H.
  set (σ0 := {| draws := draws σ; queries := queries σ ++ [geoQuery (default 800 limit)];
                console := console σ |}).
  destruct (forM_countries api (underCovered stationsWithGeo) σ0) as (σ1 & E1 & _ & Q1).
  pose proof (forM_countries_console (underCovered stationsWithGeo) σ0) as C1.
  rewrite E1 in C1. cbn [snd] in C1.
  exists σ1. split; [|split].
  - rewrite Q1. cbn. by rewrite <- app_assoc.
  - exact C1.
  - unfold getRadioStationsWithGeoData, try_catch.
    unfold mbind, Eff_bind at 1. unfold searchStations at 1. rewrite H. fold σ0.
    unfold mbind, Eff_bind at 1. fold (underCovered stationsWithGeo). rewrite E1.
    unfold mbind, Eff_bind at 1. fold (additionalStations api stationsWithGeo).
    destruct (forM (assignCoordinates random) (additionalStations api stationsWithGeo) σ1)
      as [[additional|e] σ2]; reflexivity.
Qed.

(** Without inherited country codes the coordinate assignment completes. *)
Lemma forM_assignCoordinates_plain stations σ :
  plain stations →
  ∃ stations' σ', forM (assignCoordinates random) stations σ = (Normal stations', σ').
Proof.
  intros H. revert σ. induction H as [|s l Hs _ IH]; intros σ; [by eexists _, _|].
  assert (∃ s' σ1, assignCoordinates random s σ = (Normal s', σ1)) as (s' & σ1 & E).
  { destruct (lacksCoordinates s) eqn:El.
    - destruct (COUNTRY_BOUNDARIES !! countryCode s) as [b|] eqn:Eb.
      + rewrite (assignCoordinates_synthesizes random s σ b El Eb). by eexists _, _.
      + rewrite (assignCoordinates_no_bounds random s σ Eb (Hs eq_refl)). by eexists _, _.
    - rewrite (assignCoordinates_keeps random s σ El). by eexists _, _. }
  destruct (IH σ1) as (l' & σ2 & E2).
  eexists _, _. cbn [forM]. unfold mbind, Eff_bind at 1. rewrite E.
  unfold mbind, Eff_bind at 1. rewrite E2. reflexivity.
Qed.

(** What the merge adds after [base]. *)
Lemma fold_addStation_app additional base :
  ∃ added,
    fold_left addStation additional base = base ++ added
    ∧ added `sublist_of` additional
    ∧ NoDup (map id added)
    ∧ ∀ s, s ∈ added →
        (id s ∉ map id base)
        ∧ truthy (geoLat s) = true ∧ truthy (geoLong s) = true.
Proof.
  revert base. induction additional as [|s l IH]; intros base; cbn [fold_left].
  - exists []. rewrite app_nil_r. split; [done|]. split; [done|].
    split; [apply NoDup_nil_2|]. intros s Hs. by apply elem_of_nil in Hs.
  - destruct (IH (addStation base s)) as (added & E & Hsub & Hnd & Hall).
    unfold addStation in *.
    destruct (existsb (fun s0 => String.eqb (id s0) (id s)) base) eqn:Ex; cbn [negb andb] in *.
    { exists added. split; [exact E|]. split; [by apply sublist_cons|]. split; [exact Hnd|].
      exact Hall. }
    destruct (truthy (geoLat s)) eqn:Ela; cbn [andb] in *;
      [destruct (truthy (geoLong s)) eqn:Elo|].
    + exists (s :: added). split; [by rewrite E, <- app_assoc|].
      split; [by apply sublist_skip|].
      assert (∀ s', s' ∈ added → id s' ≠ id s ∧ id s' ∉ map id base) as Hfresh.
      { intros s' Hs'. destruct (Hall s' Hs') as (Hid & _).
        rewrite map_app, elem_of_app in Hid. split.
        - intros Heq. apply Hid. right. cbn. rewrite Heq. apply elem_of_cons. by left.
        - intros Hin. apply Hid. by left. }
      split.
      * cbn. apply NoDup_cons. split; [|exact Hnd].
        intros Hin. apply list_elem_of_fmap in Hin as (s' & Heq & Hs').
        destruct (Hfresh s' Hs') as [Hne _]. congruence.
      * intros s' Hs'. apply elem_of_cons in Hs' as [->|Hs'].
        -- split; [by apply existsb_id_elem|done].
        -- destruct (Hall s' Hs') as (_ & H1 & H2). destruct (Hfresh s' Hs') as [_ Hb]. done.
    + exists added. split; [exact E|]. split; [by apply sublist_cons|]. done.
    + exists added. split; [exact E|]. split; [by apply sublist_cons|]. done.
Qed.

Lemma inherited_no_bounds countryCode :
  inherited countryCode = true → COUNTRY_BOUNDARIES !! countryCode = None.
Proof.
  unfold inherited. intros H. apply existsb_exists in H as (x & Hx & E).
  apply String.eqb_eq in E as ->. cbn in Hx.
  repeat (destruct Hx as [<-|Hx]; [reflexivity|]). destruct Hx.
Qed.

Lemma assignCoordinates_raises station σ :
  lacksCoordinates station = true → inherited (countryCode station) = true →
  ∃ e, assignCoordinates random station σ = (Abrupt e, σ).
Proof.
  intros Hl Hi. unfold assignCoordinates. fold (lacksCoordinates station). rewrite Hl.
  unfold getRandomCoordinateForCountry. rewrite (inherited_no_bounds _ Hi), Hi.
  eexists. reflexivity.
Qed.

Lemma forM_assignCoordinates_raises stations σ station :
  station ∈ stations →
  lacksCoordinates station = true → inherited (countryCode station) = true →
  ∃ e σ', forM (assignCoordinates random) stations σ = (Abrupt e, σ').
Proof.
  intros Hin Hl Hi. revert σ.
  induction stations as [|x l IH]; intros σ; [by apply elem_of_nil in Hin|].
  cbn [forM]. unfold mbind, Eff_bind at 1.
  destruct (assignCoordinates random x σ) as [[x'|e] σ1] eqn:E; [|by eexists _, _].
  apply elem_of_cons in Hin as [->|Hin].
  - destruct (assignCoordinates_raises x σ Hl Hi) as [e E']. congruence.
  - destruct (IH Hin σ1) as (e & σ2 & E2). unfold mbind, Eff_bind at 1. rewrite E2.
    by eexists _, _.
Qed.

Lemma NoDup_map_filter {A B} (g : A -> B) (f : A -> bool) l :
  NoDup (map g l) → NoDup (map g (List.filter f l)).
Proof.
  induction l as [|x l IH]; [done|]. cbn. intros [Hx Hl]%NoDup_cons.
  destruct (f x); [|by apply IH]. cbn. apply NoDup_cons. split; [|by apply IH].
  intros Hin. apply Hx. apply list_elem_of_fmap in Hin as (y & -> & Hy).
  apply list_elem_of_fmap. exists y. split; [done|].
  apply list_elem_of_In. apply list_elem_of_In, filter_In in Hy. tauto.
Qed.

Lemma country_queries_NoDup (f : Country -> bool) :
  NoDup (map (fun c => countryQuery (code c) 20) (List.filter f IMPORTANT_COUNTRIES)).
Proof.
  apply NoDup_map_filter. cbn.
  repeat (apply NoDup_cons; split;
          [intros H; repeat (apply elem_of_cons in H as [H|H]; [discriminate|]);
           by apply elem_of_nil in H|]).
  apply NoDup_nil_2.
Qed.

Lemma filter_length_le {A} (f : A -> bool) l : length (List.filter f l) ≤ length l.
Proof. induction l as [|x l IH]; [done|]. cbn. destruct (f x); cbn; lia. Qed.

End Facts.

(** X1. When the primary query is rejected the run ends there: the result
    is empty, the primary query is the only query made, no random number
    is drawn and one line is written to the console. *)
Theorem primary_failure_returns_empty :
  ∀ (api : Query -> outcome (list RadioStation)) (random : nat -> Q)
    (limit : option nat) (σ : Env) reason,
    api (geoQuery (default 800 limit)) = Rejected reason →
    getRadioStationsWithGeoData api random limit σ
    = (Normal [],
       {| draws := draws σ;
          queries := queries σ ++ [geoQuery (default 800 limit)];
          console := console σ ++ [("Error fetching radio stations:", reason)] |}).
Proof.
  intros api random limit σ reason H.
  unfold getRadioStationsWithGeoData, try_catch, mbind, Eff_bind, searchStations.
  rewrite H. reflexivity.
Qed.

Lemma primary_failure_returns_empty_witness :
  fst (getRadioStationsWithGeoData (fun _ => Rejected "timeout") Samples.half (Some 500) Env0)
  = Normal []
  ∧ queries (snd (getRadioStationsWithGeoData (fun _ => Rejected "timeout") Samples.half
                    (Some 500) Env0))
    = [geoQuery 500].
Proof.
  rewrite (primary_failure_returns_empty (fun _ => Rejected "timeout") Samples.half
             (Some 500) Env0 "timeout" eq_refl).
  split; reflexivity.
Defined.

(** X2. When the primary query resolves and no supplementary station to be
    given coordinates has a country code found on [Object.prototype], the
    result is the primary entries that pass the filter, in their order,
    followed by the added stations.  The added stations are supplementary
    stations: the stations the country queries brought become, one for
    one and in order, the assigned stations (each the station itself or,
    for a station to be given coordinates, that station with two new
    coordinates), and the added stations are a subsequence of the assigned
    ones.  They have pairwise distinct identifiers, none of them the
    identifier of a kept primary entry, and truthy coordinates; and every
    assigned station with truthy coordinates is represented in the result
    by its identifier. *)
Theorem primary_first_then_added :
  ∀ (api : Query -> outcome (list RadioStation)) (random : nat -> Q)
    (limit : option nat) (σ : Env) stationsWithGeo,
    api (geoQuery (default 800 limit)) = Resolved stationsWithGeo →
    plain (additionalStations api stationsWithGeo) →
    ∃ assigned added σ',
      getRadioStationsWithGeoData api random limit σ
      = (Normal (List.filter hasValidGeo stationsWithGeo ++ added), σ')
      ∧ Forall2 reassigned (additionalStations api stationsWithGeo) assigned
      ∧ added `sublist_of` assigned
      ∧ NoDup (map id added)
      ∧ (∀ s, s ∈ added →
           (id s ∉ map id (List.filter hasValidGeo stationsWithGeo))
           ∧ truthy (geoLat s) = true ∧ truthy (geoLong s) = true)
      ∧ (∀ s, s ∈ assigned →
           truthy (geoLat s) = true → truthy (geoLong s) = true →
           id s ∈ map id (List.filter hasValidGeo stationsWithGeo ++ added)).
Proof.
  intros api random limit σ P Hapi Hplain.
  destruct (run_resolved_env api random limit σ P Hapi) as (σ1 & _ & _ & E).
  destruct (forM_assignCoordinates_plain random _ σ1 Hplain) as (assigned & σ2 & E2).
  rewrite E2 in E.
  destruct (fold_addStation_app assigned (List.filter hasValidGeo P))
    as (added & Eadd & Hsub & Hnd & Hall).
  exists assigned, added, σ2. rewrite E, Eadd.
  split; [done|]. split; [exact (forM_assignCoordinates_reassigned random _ _ _ _ E2)|].
  split; [done|]. split; [done|]. split; [done|].
  intros s Hin Hla Hlo. rewrite <- Eadd. by apply fold_addStation_covers.
Qed.

Lemma primary_first_then_added_witness :
  ∃ assigned added σ',
    getRadioStationsWithGeoData
      (Samples.service [Samples.quito; Samples.paris] Samples.india_down) Samples.half None Env0
    = (Normal ([Samples.paris] ++ added), σ')
    ∧ Forall2 reassigned [Samples.tokyo_no_geo] assigned
    ∧ added `sublist_of` assigned
    ∧ NoDup (map id added).
Proof.
  destruct (primary_first_then_added
              (Samples.service [Samples.quito; Samples.paris] Samples.india_down)
              Samples.half None Env0 [Samples.quito; Samples.paris] eq_refl)
    as (assigned & added & σ' & E & Hfrom & Hsub & Hnd & _).
  - vm_compute. repeat constructor; discriminate.
  - assert (additionalStations
              (Samples.service [Samples.quito; Samples.paris] Samples.india_down)
              [Samples.quito; Samples.paris] = [Samples.tokyo_no_geo]) as Hadd
        by (vm_compute; reflexivity).
    rewrite Hadd in Hfrom.
    exists assigned, added, σ'. split; [exact E|]. split; [exact Hfrom|].
    split; [exact Hsub|exact Hnd].
Defined.

(** X3. The assembler invents no station and edits no description: every
    station of a run is a station some resolved query returned, unchanged
    or with only its two coordinates replaced. *)
Theorem stations_come_from_the_service :
  ∀ (api : Query -> outcome (list RadioStation)) (random : nat -> Q)
    (limit : option nat) (σ : Env) stations σ' station,
    getRadioStationsWithGeoData api random limit σ = (Normal stations, σ') →
    station ∈ stations →
    ∃ q supplied station0,
      api q = Resolved supplied ∧ station0 ∈ supplied
      ∧ same_entry station station0
      ∧ (station = station0 ∨ ∃ la lo, station = with_coords station0 la lo).
Proof.
  intros api random limit σ stations σ' station Hrun Hin.
  assert (∀ s, same_entry s s) as Hrefl by (intros s; repeat split).
  destruct (run_elem api random _ _ _ _ _ Hrun Hin)
    as (P & HP & [[HinP _]|(_ & _ & [Hadd|(s0 & b & n & Hadd & _ & ->)])]).
  - exists (geoQuery (default 800 limit)), P, station. split; [done|].
    split; [done|]. split; [apply Hrefl|by left].
  - destruct (additionalStations_supplied api _ _ Hadd) as (q & l & Hq & Hl).
    exists q, l, station. split; [done|]. split; [done|]. split; [apply Hrefl|by left].
  - destruct (additionalStations_supplied api _ _ Hadd) as (q & l & Hq & Hl).
    exists q, l, s0. split; [done|]. split; [done|].
    split; [repeat split|]. right. by eexists _, _.
Qed.

Lemma stations_come_from_the_service_witness :
  ∃ q supplied station0,
    Samples.service [Samples.paris] Samples.india_down q = Resolved supplied
    ∧ station0 ∈ supplied
    ∧ same_entry (with_coords Samples.tokyo_no_geo (Fin (38000000 # 1000000))
                    (Fin (137500000 # 1000000))) station0.
Proof.
  destruct (stations_come_from_the_service
              (Samples.service [Samples.paris] Samples.india_down) Samples.half None Env0
              [Samples.paris;
               with_coords Samples.tokyo_no_geo (Fin (38000000 # 1000000))
                 (Fin (137500000 # 1000000))]
              (snd (getRadioStationsWithGeoData
                      (Samples.service [Samples.paris] Samples.india_down)
                      Samples.half None Env0))
              (with_coords Samples.tokyo_no_geo (Fin (38000000 # 1000000))
                 (Fin (137500000 # 1000000))))
    as (q & l & s0 & Hq & Hl & Hs & _).
  - vm_compute. reflexivity.
  - apply elem_of_cons. right. apply elem_of_cons. by left.
  - by exists q, l, s0.
Defined.

(** X4. A run that starts with an empty log makes the primary query first,
    never makes the same query twice and makes at most nine queries. *)
Theorem queries_are_few_and_distinct :
  ∀ (api : Query -> outcome (list RadioStation)) (random : nat -> Q) (limit : option nat),
    head (queries (snd (getRadioStationsWithGeoData api random limit Env0)))
    = Some (geoQuery (default 800 limit))
    ∧ NoDup (queries (snd (getRadioStationsWithGeoData api random limit Env0)))
    ∧ length (queries (snd (getRadioStationsWithGeoData api random limit Env0))) ≤ 9.
Proof.
  intros api random limit.
  destruct (api (geoQuery (default 800 limit))) as [P|reason] eqn:Hapi.
  - destruct (run_resolved api random limit Env0 P Hapi) as (σ1 & Q1 & _ & σ' & Q' & E).
    rewrite E. cbn [snd]. rewrite Q', Q1. cbn [app queries Env0 head].
    split; [done|]. split.
    + apply NoDup_cons. split; [|apply country_queries_NoDup].
      intros H. apply list_elem_of_fmap in H as (c & Hc & _). discriminate.
    + cbn [length]. rewrite length_map.
      pose proof (filter_length_le
                    (needsMore (countryCounts (List.filter hasValidGeo P)))
                    IMPORTANT_COUNTRIES) as H.
      unfold underCovered. change (length IMPORTANT_COUNTRIES) with 8 in H. lia.
  - destruct (run_rejected api random limit Env0 reason Hapi) as (σ' & E & Q').
    rewrite E. cbn [snd]. rewrite Q'. change (queries Env0) with (@nil Query).
    cbn [app head length]. split; [done|]. split; [apply NoDup_singleton|lia].
Qed.

(** X5. One supplementary station that is to be given coordinates and whose
    country code is a name found on [Object.prototype] (such as
    "constructor") makes the whole run return the empty sequence: the
    lookup in the bounds table finds an inherited member, reading its
    [lat] raises, and the outer [catch] discards what the primary query
    brought. *)
Theorem inherited_country_code_empties_the_result :
  ∀ (api : Query -> outcome (list RadioStation)) (random : nat -> Q)
    (limit : option nat) (σ : Env) stationsWithGeo station,
    api (geoQuery (default 800 limit)) = Resolved stationsWithGeo →
    station ∈ additionalStations api stationsWithGeo →
    lacksCoordinates station = true →
    inherited (countryCode station) = true →
    ∃ e,
      fst (getRadioStationsWithGeoData api random limit σ) = Normal []
      ∧ last (console (snd (getRadioStationsWithGeoData api random limit σ)))
        = Some ("Error fetching radio stations:", e).
Proof.
  intros api random limit σ P station Hapi Hin Hl Hi.
  destruct (run_resolved_env api random limit σ P Hapi) as (σ1 & _ & _ & E).
  destruct (forM_assignCoordinates_raises random _ σ1 station Hin Hl Hi) as (e & σ2 & E2).
  rewrite E2 in E. exists e. rewrite E. cbn [fst snd console].
  split; [done|]. apply last_snoc.
Qed.

Lemma inherited_country_code_empties_the_result_witness :
  fst (getRadioStationsWithGeoData
         (Samples.service [Samples.paris]
            (fun _ => Resolved [Samples.sample "x-1" "constructor" None None]))
         Samples.half None Env0)
  = Normal [].
Proof.
  destruct (inherited_country_code_empties_the_result
              (Samples.service [Samples.paris]
                 (fun _ => Resolved [Samples.sample "x-1" "constructor" None None]))
              Samples.half None Env0 [Samples.paris]
              (Samples.sample "x-1" "constructor" None None) eq_refl)
    as (e & E & _); [|reflexivity|reflexivity|exact E].
  vm_compute. apply elem_of_cons. by left.
Defined.

(** X6. When the primary query resolves and the coordinate assignment does
    not raise, the console lines of a run are, one for one, the rejected
    country queries: each names its country and carries the rejection
    reason. *)
Theorem console_lists_the_failed_queries :
  ∀ (api : Query -> outcome (list RadioStation)) (random : nat -> Q)
    (limit : option nat) stationsWithGeo,
    api (geoQuery (default 800 limit)) = Resolved stationsWithGeo →
    plain (additionalStations api stationsWithGeo) →
    console (snd (getRadioStationsWithGeoData api random limit Env0))
    ≡ₚ flat_map (failure api) (underCovered stationsWithGeo).
Proof.
  intros api random limit P Hapi Hplain.
  destruct (run_resolved_env api random limit Env0 P Hapi) as (σ1 & _ & C1 & E).
  destruct (forM_assignCoordinates_plain random _ σ1 Hplain) as (additional & σ2 & E2).
  pose proof (forM_assignCoordinates_console random (additionalStations api P) σ1) as C2.
  rewrite E2 in E, C2. cbn [snd] in C2. rewrite E. cbn [snd]. by rewrite C2, C1.
Qed.

Lemma console_lists_the_failed_queries_witness :
  console (snd (getRadioStationsWithGeoData
                  (Samples.service [Samples.paris] Samples.india_down) Samples.half None Env0))
  ≡ₚ [("Error fetching radio stations for IN:", "503")].
Proof.
  refine (console_lists_the_failed_queries
            (Samples.service [Samples.paris] Samples.india_down) Samples.half None
            [Samples.paris] eq_refl _).
  vm_compute. repeat constructor; discriminate.
Defined.

End radioServiceMore.

(** ** Further properties of the audio player *)

Module AudioPlayerMore.
Import AudioPlayer AudioPlayerProofs.

(** The Howl a call is made on (for [New], the Howl it creates). *)
Definition handle_of (k : howler_call) : handle :=
  match k with
  | New h _ _ | Play h | Pause h | Volume h _ | Unload h => h
  end.

(** A call that may follow the calls [p]: a creation yields a Howl not seen
    before, any other call is made on the one Howl that is live. *)
Definition allowed (p : list howler_call) (k : howler_call) : Prop :=
  match k with
  | New h _ _ => ∀ k', k' ∈ p → handle_of k' ≠ h
  | _ => live p = [handle_of k]
  end.

Definition disciplined (calls : list howler_call) : Prop :=
  ∀ p k, p ++ [k] `prefix_of` calls → allowed p k.

Record sound (c : Component) : Prop := {
  sound_calls : disciplined (howls c);
  sound_handles : ∀ k, k ∈ howls c → handle_of k < created c;
  sound_source : ∀ h, soundRef c = Some h →
                 ∃ st v, station c = Some st ∧ New h (url st) v ∈ howls c
}.

Lemma disciplined_nil : disciplined [].
Proof.
  intros p k Hp. apply prefix_nil_inv in Hp. by destruct p.
Qed.

Lemma disciplined_snoc calls k :
  disciplined calls → allowed calls k → disciplined (calls ++ [k]).
Proof.
  intros H Hk p k' Hp. apply prefix_snoc_inv in Hp as [Hp|Hp]; [by apply H|].
  apply app_inj_tail in Hp as [-> ->]. exact Hk.
Qed.

Lemma sound_same c c' :
  howls c' = howls c → created c' = created c → soundRef c' = soundRef c →
  dep (station c') = dep (station c) →
  sound c → sound c'.
Proof.
  intros Hh Hn Hr Hd [H1 H2 H3]. split; rewrite ?Hh, ?Hn, ?Hr; try done.
  intros h Hs. destruct (H3 h Hs) as (st & v & Hst & Hin).
  rewrite Hst in Hd. destruct (station c') as [st'|]; [|discriminate].
  injection Hd as Hu. exists st', v. by rewrite Hu.
Qed.

Lemma sound_current c c' h k :
  consistent c → sound c → soundRef c = Some h →
  k = Play h ∨ k = Pause h ∨ (∃ v, k = Volume h v) →
  howls c' = howls c ++ [k] → created c' = created c → soundRef c' = soundRef c →
  station c' = station c →
  sound c'.
Proof.
  intros Hc [H1 H2 H3] Hr Hk Hh Hn Hr' Hst.
  pose proof (live_ref c Hc) as Hl. rewrite Hr in Hl. cbn in Hl.
  pose proof (ref_created c Hc h Hr) as Hlt.
  split; rewrite ?Hh, ?Hn, ?Hr', ?Hst.
  - apply disciplined_snoc; [done|]. destruct Hk as [->|[->|[v ->]]]; exact Hl.
  - intros k' [Hin|Hin%list_elem_of_singleton]%elem_of_app; [by apply H2|].
    subst k'. by destruct Hk as [->|[->|[v ->]]].
  - intros h' Hs. destruct (H3 h' Hs) as (st & v & E & Hin). exists st, v.
    split; [done|]. apply elem_of_app. by left.
Qed.

Lemma sound_switch c c' st :
  consistent c → sound c →
  howls c' = howls c ++ teardown c ++ startup c st →
  created c' = (if stream st is Some _ then S (created c) else created c) →
  soundRef c' = (if stream st is Some _ then Some (created c) else None) →
  (is_Some (stream st) → station c' = st) →
  sound c'.
Proof.
  intros Hc [H1 H2 H3] Hh Hn Hr Hst.
  pose proof (live_ref c Hc) as Hl.
  assert (disciplined (howls c ++ teardown c)
          ∧ (∀ k, k ∈ howls c ++ teardown c → handle_of k < created c)) as [D1 D2].
  { unfold teardown. destruct (soundRef c) as [h|] eqn:E; [|by rewrite app_nil_r].
    split.
    - apply disciplined_snoc; [done|]. exact Hl.
    - intros k [Hin|Hin%list_elem_of_singleton]%elem_of_app; [by apply H2|].
      subst k. by apply (ref_created c Hc). }
  pose proof (live_teardown (howls c) (soundRef c) Hl) as Hl0.
  fold (teardown c) in Hl0.
  rewrite app_assoc in Hh. unfold startup in Hh.
  destruct (stream st) as [src|] eqn:Es.
  - change [New (created c) src (volume c); Play (created c)]
      with ([New (created c) src (volume c)] ++ [Play (created c)]) in Hh.
    rewrite app_assoc in Hh.
    split; rewrite ?Hh, ?Hn, ?Hr.
    + apply disciplined_snoc; [apply disciplined_snoc; [done|]|].
      * intros k' Hk'. apply D2 in Hk'. lia.
      * cbn. by rewrite live_snoc, Hl0.
    + intros k [[Hin|Hin%list_elem_of_singleton]%elem_of_app
               |Hin%list_elem_of_singleton]%elem_of_app.
      * apply D2 in Hin. lia.
      * subst k. cbn. lia.
      * subst k. cbn. lia.
    + intros h [= <-]. rewrite (Hst (ex_intro _ src eq_refl)).
      unfold stream in Es. destruct st as [s|]; [|discriminate].
      destruct (truthy_string (url s)); [|discriminate]. injection Es as <-.
      exists s, (volume c). split; [done|].
      apply elem_of_app. left. apply elem_of_app. right. by apply list_elem_of_singleton.
  - rewrite app_nil_r in Hh. split; rewrite ?Hh, ?Hn, ?Hr; try done.
Qed.

Lemma sound_render st c :
  mounted c = true → consistent c → sound c → sound (render st c).
Proof.
  intros Hm Hc Hs. destruct (decide (dep (station c) = dep st)) as [E|E].
  - rewrite render_same by done. by apply (sound_same c).
  - rewrite render_changed by done. by apply (sound_switch c _ st).
Qed.

Lemma sound_step e c : consistent c → sound c → sound (step e c).
Proof.
  intros Hc Hs. unfold step. destruct (mounted c) eqn:Hm; [|done].
  destruct e as [st|v| |h cb|].
  - by apply sound_render.
  - destruct (station c); [|done]. rewrite handleVolumeChange_spec.
    destruct (Qeq_bool v (volume c)); [done|].
    destruct (soundRef c) as [h|] eqn:Hr.
    + apply (sound_current c _ h (Volume h v)); try done. right. right. by exists v.
    + apply (sound_same c); try done. cbn. by rewrite app_nil_r.
  - destruct (station c); [|done]. destruct (isLoading c); [done|].
    unfold togglePlayPause. destruct (soundRef c) as [h|] eqn:Hr; [|done].
    destruct (isPlaying c).
    + apply (sound_current c _ h (Pause h)); try done. right. by left.
    + apply (sound_current c _ h (Play h)); try done. by left.
  - destruct (h <? created c); [|done]. apply (sound_same c); try done; by destruct cb.
  - unfold unmount. rewrite release_spec. cbn.
    apply (sound_switch c _ None); try done; cbn.
    + by rewrite app_nil_r.
    + by intros [? ?].
Qed.

Lemma sound_mount st : sound (mount st).
Proof.
  unfold mount.
  set (c0 := {| station := st; isPlaying := false; volume := 0.75; isLoading := false;
                error := None; soundRef := None; mounted := true; howls := [];
                created := 0 |}).
  assert (consistent c0) as Hc0.
  { split; cbn; try discriminate; [done|apply exclusive_nil]. }
  assert (sound c0) as Hs0.
  { split; cbn; try discriminate; [apply disciplined_nil|]. intros k Hk.
    by apply elem_of_nil in Hk. }
  assert (consistent (stationEffect c0)) as Hc1.
  { exact (consistent_fresh c0 st eq_refl eq_refl Hc0). }
  assert (sound (stationEffect c0)) as Hs1.
  { rewrite stationEffect_spec. by apply (sound_switch c0 _ st). }
  unfold volumeEffect. destruct (soundRef (stationEffect c0)) as [h|] eqn:Hr; [|done].
  apply (sound_current (stationEffect c0) _ h (Volume h (volume (stationEffect c0))));
    try done.
  right. right. by eexists.
Qed.

Lemma reachable_sound c : reachable c → sound c.
Proof.
  induction 1 as [st|e c Hc IH]; [apply sound_mount|].
  apply sound_step; [by apply reachable_consistent|done].
Qed.


Lemma step_isLoading e c :
  (∀ h cb, e ≠ Fire h cb) → isLoading c = true → isLoading (step e c) = true.
Proof.
  intros He Hl. unfold step. destruct (mounted c); [|done].
  destruct e as [st|v| |h cb|].
  - unfold render. destruct (decide _); [done|].
    rewrite stationEffect_spec, release_spec. cbn. by destruct (stream st).
  - destruct (station c); [|done]. rewrite handleVolumeChange_spec.
    by destruct (Qeq_bool v (volume c)).
  - destruct (station c); [|done]. by rewrite Hl.
  - by destruct (He h cb).
  - unfold unmount. by rewrite release_spec.
Qed.

(** X7. The player never uses a Howl it has unloaded or not yet created: at
    every point of the calls a reachable player has made, a call of
    [play], [pause], [volume] or [unload] is made on the one Howl live at
    that point, and [new Howl] yields a Howl no earlier call mentions. *)
Theorem calls_only_on_the_live_howl :
  ∀ c p k,
    reachable c → p ++ [k] `prefix_of` howls c →
    match k with
    | New h _ _ => ∀ k', k' ∈ p → handle_of k' ≠ h
    | Play h | Pause h | Volume h _ | Unload h => live p = [h]
    end.
Proof.
  intros c p k Hreach Hp.
  pose proof (sound_calls c (reachable_sound c Hreach) p k Hp) as H.
  by destruct k.
Qed.

Lemma calls_only_on_the_live_howl_witness :
  live [New 0 "https://stream.example/fr-1" 0.75; Play 0; Volume 0 0.75] = [0].
Proof.
  refine (calls_only_on_the_live_howl
            (step (Render (Some Samples.tokyo)) (mount (Some Samples.paris)))
            [New 0 "https://stream.example/fr-1" 0.75; Play 0; Volume 0 0.75] (Unload 0)
            (reachable_step _ _ (reachable_mount _)) _).
  by exists [New 1 "https://stream.example/jp-2" 0.75; Play 1].
Defined.

(** X8. What plays is what is shown: whenever a reachable player holds a
    Howl, a station is shown, the Howl was created for that station's
    stream URL, it is the only live Howl, and the volume last given to it
    is the volume of the state. *)
Theorem live_howl_plays_the_station_shown :
  ∀ c h,
    reachable c → soundRef c = Some h →
    ∃ st v0 v,
      station c = Some st
      ∧ New h (url st) v0 ∈ howls c
      ∧ live (howls c) = [h]
      ∧ requestedVolume (howls c) h = Some v ∧ (v == volume c)%Q.
Proof.
  intros c h Hreach Hr.
  pose proof (reachable_consistent c Hreach) as Hc.
  destruct (sound_source c (reachable_sound c Hreach) h Hr) as (st & v0 & Hst & Hin).
  destruct (ref_volume c Hc h Hr) as (v & Hv & Hv').
  exists st, v0, v. split; [done|]. split; [done|]. split; [|done].
  rewrite (live_ref c Hc), Hr. reflexivity.
Qed.

Lemma live_howl_plays_the_station_shown_witness :
  ∃ st v0 v,
    Some Samples.paris_relisted = Some st
    ∧ New 0 (url st) v0
      ∈ howls (step (Render (Some Samples.paris_relisted)) (mount (Some Samples.paris)))
    ∧ live (howls (step (Render (Some Samples.paris_relisted)) (mount (Some Samples.paris))))
      = [0]
    ∧ requestedVolume
        (howls (step (Render (Some Samples.paris_relisted)) (mount (Some Samples.paris)))) 0
      = Some v
    ∧ (v == 0.75)%Q.
Proof.
  exact (live_howl_plays_the_station_shown
           (step (Render (Some Samples.paris_relisted)) (mount (Some Samples.paris))) 0
           (reachable_step _ _ (reachable_mount _)) eq_refl).
Defined.



(** X10. Only a callback clears the loading flag: while it is set, no
    render (not even one that selects no station or a station without a
    stream URL), slider move, click or unmount clears it. *)
Theorem loading_cleared_only_by_callback :
  ∀ c events,
    Forall (fun e => ∀ h cb, e ≠ Fire h cb) events →
    isLoading c = true → isLoading (run events c) = true.
Proof.
  intros c events H. revert c. induction H as [|e es He _ IH]; intros c Hl; [done|].
  cbn. fold (run es (step e c)). by apply IH, step_isLoading.
Qed.

Lemma loading_cleared_only_by_callback_witness :
  isLoading (run [Render None; ClickPlayPause] (mount (Some Samples.paris))) = true
  ∧ soundRef (run [Render None; ClickPlayPause] (mount (Some Samples.paris))) = None.
Proof.
  split; [|reflexivity].
  apply (loading_cleared_only_by_callback (mount (Some Samples.paris))
           [Render None; ClickPlayPause]).
  - repeat constructor; discriminate.
  - reflexivity.
Defined.

(** X11. With a session that is not loading, two clicks on the play button
    pause and resume (or start and pause) the current Howl and leave the
    player showing what it showed: the button toggles, it never creates or
    unloads a Howl. *)
Theorem two_clicks_restore_the_state :
  ∀ c h st,
    mounted c = true → station c = Some st → isLoading c = false →
    soundRef c = Some h →
    howls (step ClickPlayPause (step ClickPlayPause c))
    = howls c ++ (if isPlaying c then [Pause h; Play h] else [Play h; Pause h])
    ∧ visible (step ClickPlayPause (step ClickPlayPause c)) = visible c
    ∧ soundRef (step ClickPlayPause (step ClickPlayPause c)) = Some h
    ∧ live (howls (step ClickPlayPause (step ClickPlayPause c))) = live (howls c).
Proof.
  intros c h st Hm Hst Hl Hr.
  assert (step ClickPlayPause (step ClickPlayPause c)
          = call (if isPlaying c then Play h else Pause h)
              (call (if isPlaying c then Pause h else Play h) c)) as ->.
  { destruct c as [st0 pl v ld er r m hs n]. cbn in *. subst.
    unfold step, togglePlayPause, call, setIsPlaying. cbn. by destruct pl. }
  unfold visible, call. cbn. rewrite <- app_assoc.
  split; [by destruct (isPlaying c)|]. split; [done|]. split; [done|].
  rewrite !app_assoc, !live_snoc. by destruct (isPlaying c).
Qed.

Lemma two_clicks_restore_the_state_witness :
  howls (step ClickPlayPause
           (step ClickPlayPause (step (Fire 0 onplay) (mount (Some Samples.paris)))))
  = [New 0 "https://stream.example/fr-1" 0.75; Play 0; Volume 0 0.75; Pause 0; Play 0].
Proof.
  exact (proj1 (two_clicks_restore_the_state
                  (step (Fire 0 onplay) (mount (Some Samples.paris))) 0 Samples.paris
                  eq_refl eq_refl eq_refl eq_refl)).
Defined.

End AudioPlayerMore.

(** ** Properties of the map *)

Module WorldMapProofs.
Import WorldMap.

Definition within_zoom_limits (z : Q) : Prop := (MIN_ZOOM <= z <= MAX_ZOOM)%Q.

Lemma zoomIn_limits z :
  (MIN_ZOOM <= z)%Q → within_zoom_limits (Qmin MAX_ZOOM (z * ZOOM_STEP)).
Proof.
  unfold within_zoom_limits, MIN_ZOOM, MAX_ZOOM, ZOOM_STEP. intros H.
  destruct (Q.min_spec 4 (z * 1.5)) as [[H1 E]|[H1 E]]; rewrite E; lra.
Qed.

Lemma div_ZOOM_STEP z : (z / ZOOM_STEP == z * (2 # 3))%Q.
Proof. unfold Qdiv. apply Qmult_comp; reflexivity. Qed.

Lemma zoomOut_limits z :
  (z <= MAX_ZOOM)%Q → within_zoom_limits (Qmax MIN_ZOOM (z / ZOOM_STEP)).
Proof.
  unfold within_zoom_limits. intros H.
  destruct (Q.max_spec MIN_ZOOM (z / ZOOM_STEP)) as [[H1 E]|[H1 E]]; rewrite E;
    rewrite div_ZOOM_STEP in *; unfold MIN_ZOOM, MAX_ZOOM in *; lra.
Qed.

Lemma zoomIn_raises lo lo' z :
  (lo <= z)%Q → (lo' <= MAX_ZOOM)%Q → (lo' <= lo * ZOOM_STEP)%Q →
  (lo' <= Qmin MAX_ZOOM (z * ZOOM_STEP))%Q.
Proof.
  unfold MAX_ZOOM, ZOOM_STEP. intros H1 H2 H3. apply Q.min_glb; lra.
Qed.

Lemma zoomOut_lowers hi hi' z :
  (z <= hi)%Q → (MIN_ZOOM <= hi')%Q → (hi / ZOOM_STEP <= hi')%Q →
  (Qmax MIN_ZOOM (z / ZOOM_STEP) <= hi')%Q.
Proof.
  intros H1 H2 H3. rewrite div_ZOOM_STEP in *. unfold MIN_ZOOM in *.
  apply Q.max_lub; lra.
Qed.

Lemma gesture_zoom_limits e m :
  (∀ c z, e = MoveEnd c z → within_zoom_limits z) →
  within_zoom_limits (zoom m) → within_zoom_limits (zoom (apply_gesture e m)).
Proof.
  intros He [Hlo Hhi]. destruct e as [| | |c z|st|]; cbn.
  - by apply zoomIn_limits.
  - by apply zoomOut_limits.
  - unfold within_zoom_limits, DEFAULT_ZOOM, MIN_ZOOM, MAX_ZOOM. lra.
  - by apply (He c z).
  - done.
  - done.
Qed.

Lemma gestures_app events events' m : gestures (events ++ events') m = gestures events' (gestures events m).
Proof. unfold gestures. by rewrite fold_left_app. Qed.

Lemma zoomIn_at_limit n m :
  (zoom m == MAX_ZOOM)%Q → (zoom (gestures (replicate n ZoomIn) m) == MAX_ZOOM)%Q.
Proof.
  revert m. induction n as [|n IH]; intros m H; [done|].
  cbn. fold (gestures (replicate n ZoomIn) (handleZoomIn m)). apply IH. cbn.
  rewrite H. apply Q.min_l. unfold MAX_ZOOM, ZOOM_STEP. lra.
Qed.

Lemma zoomOut_at_limit n m :
  (zoom m == MIN_ZOOM)%Q → (zoom (gestures (replicate n ZoomOut) m) == MIN_ZOOM)%Q.
Proof.
  revert m. induction n as [|n IH]; intros m H; [done|].
  cbn. fold (gestures (replicate n ZoomOut) (handleZoomOut m)). apply IH. cbn.
  rewrite H. apply Q.max_l. rewrite div_ZOOM_STEP. unfold MIN_ZOOM. lra.
Qed.

(** X12. The zoom level never leaves [MIN_ZOOM, MAX_ZOOM] = [1, 4]: from
    the firstView view, whatever buttons are clicked, as long as the zoom
    levels reported by the zoomable group at the end of a move are within
    the limits it was given. *)
Theorem zoom_stays_within_limits :
  ∀ events,
    Forall (fun e => ∀ c z, e = MoveEnd c z → (MIN_ZOOM <= z <= MAX_ZOOM)%Q) events →
    (MIN_ZOOM <= zoom (gestures events firstView) <= MAX_ZOOM)%Q.
Proof.
  intros events H.
  enough (∀ m, within_zoom_limits (zoom m) →
               within_zoom_limits (zoom (gestures events m))) as G.
  { apply G. cbn. unfold within_zoom_limits, DEFAULT_ZOOM, MIN_ZOOM, MAX_ZOOM. lra. }
  induction H as [|e es He _ IH]; intros m Hm; [done|].
  cbn. fold (gestures es (apply_gesture e m)). by apply IH, gesture_zoom_limits.
Qed.

Lemma zoom_stays_within_limits_witness :
  (MIN_ZOOM
   <= zoom (gestures [ZoomIn; MoveEnd (10, 30) 2.5; ZoomOut; ZoomOut; ZoomOut] firstView)
   <= MAX_ZOOM)%Q.
Proof.
  apply zoom_stays_within_limits.
  repeat constructor; try discriminate.
  - injection H as _ <-. unfold MIN_ZOOM, Qle. cbn. lia.
  - injection H as _ <-. unfold MAX_ZOOM, Qle. cbn. lia.
Defined.

(** X13. The zoom buttons saturate: from any zoom level within the limits,
    four or more clicks on "zoom in" give exactly [MAX_ZOOM] and four or
    more clicks on "zoom out" give exactly [MIN_ZOOM]. *)
Theorem zoom_buttons_saturate :
  ∀ m n,
    (MIN_ZOOM <= zoom m <= MAX_ZOOM)%Q → 4 ≤ n →
    (zoom (gestures (replicate n ZoomIn) m) == MAX_ZOOM)%Q
    ∧ (zoom (gestures (replicate n ZoomOut) m) == MIN_ZOOM)%Q.
Proof.
  intros m n [Hlo Hhi] Hn.
  replace n with (4 + (n - 4)) by lia. rewrite !replicate_add, !gestures_app. split.
  - apply zoomIn_at_limit. cbn. apply Qle_antisym.
    + apply Q.le_min_l.
    + unfold MIN_ZOOM in Hlo.
      pose proof (zoomIn_raises 1 1.5 _ Hlo) as H1.
      pose proof (zoomIn_raises 1.5 2.25 _ (H1 ltac:(unfold MAX_ZOOM; lra)
                                              ltac:(unfold ZOOM_STEP; lra))) as H2.
      pose proof (zoomIn_raises 2.25 3.375 _ (H2 ltac:(unfold MAX_ZOOM; lra)
                                                ltac:(unfold ZOOM_STEP; lra))) as H3.
      apply (zoomIn_raises 3.375 MAX_ZOOM _
               (H3 ltac:(unfold MAX_ZOOM; lra) ltac:(unfold ZOOM_STEP; lra)));
        unfold MAX_ZOOM, ZOOM_STEP; lra.
  - apply zoomOut_at_limit. cbn. apply Qle_antisym.
    + unfold MAX_ZOOM in Hhi.
      pose proof (zoomOut_lowers 4 3 _ Hhi) as H1.
      pose proof (zoomOut_lowers 3 2 _ (H1 ltac:(unfold MIN_ZOOM; lra)
                                          ltac:(rewrite div_ZOOM_STEP; lra))) as H2.
      pose proof (zoomOut_lowers 2 1.5 _ (H2 ltac:(unfold MIN_ZOOM; lra)
                                            ltac:(rewrite div_ZOOM_STEP; lra))) as H3.
      apply (zoomOut_lowers 1.5 MIN_ZOOM _
               (H3 ltac:(unfold MIN_ZOOM; lra) ltac:(rewrite div_ZOOM_STEP; lra)));
        [unfold MIN_ZOOM; lra|rewrite div_ZOOM_STEP; unfold MIN_ZOOM; lra].
    + apply Q.le_max_l.
Qed.

Lemma zoom_buttons_saturate_witness :
  (zoom (gestures (replicate 4 ZoomIn) firstView) == MAX_ZOOM)%Q
  ∧ (zoom (gestures (replicate 4 ZoomOut) firstView) == MIN_ZOOM)%Q.
Proof.
  apply zoom_buttons_saturate; [|lia].
  cbn. unfold DEFAULT_ZOOM, MIN_ZOOM, MAX_ZOOM, Qle. cbn. lia.
Defined.

(** X14. Every station returned by [getRadioStationsWithGeoData] is drawn
    at its own position: its marker's coordinates are its longitude and its
    latitude, in this order, and never the fallback 0. *)
Theorem markers_sit_at_station_coordinates :
  ∀ (api : radioService.Query -> radioService.outcome (list RadioStation))
    (random : nat -> Q) (limit : option nat) (σ : radioService.Env) stations σ'
    currentStation station,
    radioService.getRadioStationsWithGeoData api random limit σ
    = (radioService.Normal stations, σ') →
    station ∈ stations →
    marker currentStation station ∈ markers stations currentStation
    ∧ ∃ x y,
        geoLong station = Some x ∧ geoLat station = Some y
        ∧ coordinates (marker currentStation station) = (x, y).
Proof.
  intros api random limit σ stations σ' cur station Hrun Hin. split.
  - unfold markers. apply list_elem_of_fmap. by exists station.
  - destruct (radioServiceProofs.run_elem_truthy api random _ _ _ _ _ Hrun Hin) as [Hla Hlo].
    unfold marker, orZero. cbn. rewrite Hla, Hlo.
    destruct (geoLong station) as [x|]; [|discriminate].
    destruct (geoLat station) as [y|]; [|discriminate].
    by exists x, y.
Qed.

Lemma markers_sit_at_station_coordinates_witness :
  coordinates (marker None Samples.paris) = (Fin 2.35, Fin 48.85).
Proof.
  destruct (markers_sit_at_station_coordinates
              (Samples.service [Samples.paris] Samples.nothing) Samples.half None
              radioService.Env0 [Samples.paris]
              (snd (radioService.getRadioStationsWithGeoData
                      (Samples.service [Samples.paris] Samples.nothing) Samples.half None
                      radioService.Env0))
              None Samples.paris)
    as (_ & x & y & [= <-] & [= <-] & E).
  - vm_compute. reflexivity.
  - apply elem_of_cons. by left.
  - exact E.
Defined.

(** X15. When the stations on the map have pairwise distinct identifiers
    and the current station's identifier is among them, exactly one marker
    is drawn as selected (radius 5); all others have radius 3. *)
Theorem one_marker_is_selected :
  ∀ stations current,
    NoDup (map id stations) →
    id current ∈ map id stations →
    length (List.filter (fun mk => r mk =? 5) (markers stations (Some current))) = 1
    ∧ ∀ mk, mk ∈ markers stations (Some current) → r mk = 5 ∨ r mk = 3.
Proof.
  intros stations current Hnd Hin. split.
  - induction stations as [|s l IH]; [by apply elem_of_nil in Hin|].
    cbn in Hnd, Hin. apply NoDup_cons in Hnd as [Hs Hl].
    cbn [markers map List.filter]. fold (markers l (Some current)).
    cbn [marker r isCurrent].
    destruct (String.eqb_spec (id current) (id s)) as [E|E].
    + cbn. f_equal.
      assert (∀ l', id current ∉ map id l' →
                    List.filter (fun mk => r mk =? 5) (markers l' (Some current)) = []) as Hnone.
      { clear. induction l' as [|s' l' IH']; intros H; [done|].
        cbn in H. apply not_elem_of_cons in H as [H1 H2].
        cbn [markers map List.filter marker r isCurrent].
        destruct (String.eqb_spec (id current) (id s')); [done|]. cbn. by apply IH'. }
      rewrite Hnone; [done|]. by rewrite E.
    + cbn. apply elem_of_cons in Hin as [Hin|Hin]; [done|]. by apply IH.
  - intros mk Hmk. unfold markers in Hmk. apply list_elem_of_fmap in Hmk as (s & -> & _).
    cbn. destruct (String.eqb (id current) (id s)); auto.
Qed.

Lemma one_marker_is_selected_witness :
  length (List.filter (fun mk => r mk =? 5)
            (markers [Samples.paris; Samples.tokyo; Samples.boston] (Some Samples.tokyo)))
  = 1.
Proof.
  refine (proj1 (one_marker_is_selected [Samples.paris; Samples.tokyo; Samples.boston]
                   Samples.tokyo _ _)).
  - cbn. repeat (apply NoDup_cons; split;
                 [intros H; repeat (apply elem_of_cons in H as [H|H]; [discriminate|]);
                  by apply elem_of_nil in H|]).
    apply NoDup_nil_2.
  - cbn. apply elem_of_cons. right. apply elem_of_cons. by left.
Defined.

(** X16. The name shown in a tooltip has at most 13 UTF-16 code units: a
    name of at most 12 code units is shown whole, a longer one as its first
    10 code units followed by three dots; shortening a shortened name
    changes nothing. *)
Theorem tooltip_name_is_short :
  ∀ name : utf16,
    length (tooltipName name) ≤ 13
    ∧ (length name ≤ 12 → tooltipName name = name)
    ∧ (12 < length name →
       tooltipName name = take 10 name ++ ascii_literal "..."
       ∧ length (tooltipName name) = 13)
    ∧ tooltipName (tooltipName name) = tooltipName name.
Proof.
  intros name.
  destruct (Nat.ltb_spec 12 (length name)) as [H|H].
  - assert (tooltipName name = take 10 name ++ ascii_literal "...") as E.
    { unfold tooltipName, substring_0.
      by destruct (Nat.ltb_spec 12 (length name)); [|lia]. }
    assert (length (take 10 name) = 10) as H10 by (rewrite length_take; lia).
    assert (length (take 10 name ++ ascii_literal "...") = 13) as H13
        by (rewrite length_app, H10; reflexivity).
    rewrite E. split; [lia|]. split; [lia|]. split; [done|].
    unfold tooltipName, substring_0. rewrite H13. change (12 <? 13) with true. cbv iota.
    by rewrite take_app_length' by done.
  - assert (tooltipName name = name) as E.
    { unfold tooltipName. by destruct (Nat.ltb_spec 12 (length name)); [lia|]. }
    rewrite !E. split; [lia|]. split; [done|]. split; [lia|done].
Qed.

(** "Radio Bogotá" has 12 code units (the last one is 225) and is shown
    whole; a longer name is cut. *)
Lemma tooltip_name_is_short_witness :
  tooltipName (ascii_literal "Radio Bogot" ++ [225%N])
  = ascii_literal "Radio Bogot" ++ [225%N]
  ∧ tooltipName (ascii_literal "Radio Paradise Mellow Mix") = ascii_literal "Radio Para...".
Proof.
  split.
  - destruct (tooltip_name_is_short (ascii_literal "Radio Bogot" ++ [225%N]))
      as (_ & H & _).
    apply H. cbn. lia.
  - destruct (tooltip_name_is_short (ascii_literal "Radio Paradise Mellow Mix"))
      as (_ & _ & H & _).
    destruct H as [E _]; [cbn; lia|]. exact E.
Defined.

End WorldMapProofs.

(** ** Properties of the page *)

Module HomeProofs.
Import radioService Home.

Lemma run_completes (api : Query -> outcome (list RadioStation)) (random : nat -> Q)
    limit σ :
  ∃ stations σ', getRadioStationsWithGeoData api random limit σ = (Normal stations, σ').
Proof.
  unfold getRadioStationsWithGeoData. apply radioServiceProofs.try_catch_normal.
  intros e σ1. eexists _, _. reflexivity.
Qed.

(** [loadStations] in terms of the completion of the assembler. *)
Lemma loadStations_unfold (api : Query -> outcome (list RadioStation)) (random : nat -> Q)
    p σ :
  loadStations api random p σ
  = match getRadioStationsWithGeoData api random (Some 500) σ with
    | (Normal stationsData, σ') =>
        (Normal
           {| stations := if length stationsData =? 0 then stations p else stationsData;
              currentStation := currentStation p;
              loading := false;
              error := if length stationsData =? 0
                       then Some "No radio stations found with geographic data"
                       else None |},
         σ')
    | (Abrupt err, σ') =>
        (Normal
           {| stations := stations p; currentStation := currentStation p; loading := false;
              error := Some "Failed to load radio stations. Please try again later." |},
         {| draws := draws σ'; queries := queries σ';
            console := console σ' ++ [("Failed to load radio stations:", err)] |})
    end.
Proof.
  unfold loadStations, try_catch. unfold mbind, Eff_bind at 1. unfold mbind, Eff_bind at 1.
  destruct (getRadioStationsWithGeoData api random (Some 500) σ) as [[out|err] σ'];
    [by destruct (length out =? 0)|reflexivity].
Qed.

(** X17. Loading always ends, and never with the message of the [catch]
    branch: for every directory service, [loadStations] completes, clears
    the loading flag, keeps the current station, and either stores a
    non-empty result with no error or, the result being empty, sets the
    error "No radio stations found with geographic data" and keeps the
    stations it had. *)
Theorem loadStations_outcome :
  ∀ (api : Query -> outcome (list RadioStation)) (random : nat -> Q) (p : Page) (σ : Env),
    ∃ stationsData σ',
      getRadioStationsWithGeoData api random (Some 500) σ = (Normal stationsData, σ')
      ∧ loadStations api random p σ
        = (Normal
             {| stations := if length stationsData =? 0 then stations p else stationsData;
                currentStation := currentStation p;
                loading := false;
                error := if length stationsData =? 0
                         then Some "No radio stations found with geographic data"
                         else None |},
           σ').
Proof.
  intros api random p σ.
  destruct (run_completes api random (Some 500) σ) as (out & σ' & E).
  exists out, σ'. split; [exact E|].
  rewrite loadStations_unfold, E. reflexivity.
Qed.

Lemma main_MapPanel p l cur :
  main p = MapPanel l cur → l = stations p ∧ cur = currentStation p.
Proof.
  unfold main. destruct (loading p); [discriminate|].
  destruct (error p) as [m|]; [destruct (truthy_string m); [discriminate|]|];
    by intros [= <- <-].
Qed.

(** X18. Once loading has finished the page never shows the spinner, never
    the message of the [catch] branch and never an empty map: it shows
    either the message "No radio stations found with geographic data",
    exactly when the assembler returned nothing, or the map with the
    non-empty sequence the assembler returned and no station selected. *)
Theorem page_after_loading :
  ∀ (api : Query -> outcome (list RadioStation)) (random : nat -> Q) (σ : Env),
    ∃ p σ',
      loadStations api random firstRender σ = (Normal p, σ')
      ∧ fst (getRadioStationsWithGeoData api random (Some 500) σ) = Normal (stations p)
      ∧ main p
        = match stations p with
          | [] => ErrorPanel "No radio stations found with geographic data"
          | _ :: _ => MapPanel (stations p) None
          end.
Proof.
  intros api random σ.
  destruct (run_completes api random (Some 500) σ) as (out & σ' & E).
  eexists _, σ'. rewrite loadStations_unfold, E. split; [reflexivity|].
  by destruct out.
Qed.

End HomeProofs.

(** ** Properties of the page with its player *)

Module AppProofs.
Import App.

Lemma step_Render_station st c :
  AudioPlayer.mounted c = true →
  AudioPlayer.station (AudioPlayer.step (AudioPlayer.Render st) c) = st
  ∧ AudioPlayer.mounted (AudioPlayer.step (AudioPlayer.Render st) c) = true.
Proof.
  intros Hm. unfold AudioPlayer.step. rewrite Hm. unfold AudioPlayer.render.
  destruct (decide _); [done|].
  rewrite AudioPlayerProofs.stationEffect_spec, AudioPlayerProofs.release_spec. cbn.
  by rewrite Hm.
Qed.

Lemma step_player_station e c :
  (∀ st, e ≠ AudioPlayer.Render st) → e ≠ AudioPlayer.Unmount →
  AudioPlayer.station (AudioPlayer.step e c) = AudioPlayer.station c
  ∧ AudioPlayer.mounted (AudioPlayer.step e c) = AudioPlayer.mounted c.
Proof.
  intros He Hu. destruct c as [st0 pl vol ld er ref m hs n].
  unfold AudioPlayer.step.
  cbn [AudioPlayer.mounted AudioPlayer.station AudioPlayer.isLoading AudioPlayer.created].
  destruct m; [|done].
  destruct e as [st|v| |h cb|]; [by destruct (He st)| | | |by destruct Hu]; clear He Hu.
  - destruct st0; [|by split].
    rewrite AudioPlayerProofs.handleVolumeChange_spec.
    by destruct (Qeq_bool v _).
  - destruct st0; [|by split]. destruct ld; [by split|].
    unfold AudioPlayer.togglePlayPause. cbn. destruct ref; [|by split]. by destruct pl.
  - destruct (h <? n); [|by split]. by destruct cb.
Qed.

(** What every state of the loaded page satisfies. *)
Record linked (p : Home.Page) (a : State) : Prop := {
  linked_reachable : AudioPlayer.reachable (player a);
  linked_mounted : AudioPlayer.mounted (player a) = true;
  linked_station : AudioPlayer.station (player a) = Home.currentStation (page a);
  linked_stations : Home.stations (page a) = Home.stations p;
  linked_current : ∀ st, Home.currentStation (page a) = Some st → st ∈ Home.stations p
}.

Lemma linked_act p e a : linked p a → linked p (act e a).
Proof.
  intros [Hr Hm Hs Hl Hc]. destruct e as [i|v| |h cb]; cbn.
  - destruct (Home.main (page a)) as [|m|l cur] eqn:Em; [by split..|].
    apply HomeProofs.main_MapPanel in Em as [-> _].
    destruct (Home.stations (page a) !! i) as [s|] eqn:Ei; [|by split].
    destruct (step_Render_station (Some s) (player a) Hm) as [E1 E2].
    split; cbn; try done.
    + by constructor.
    + intros st [= <-]. rewrite <- Hl. by apply list_elem_of_lookup_2 in Ei.
  - destruct (step_player_station (AudioPlayer.ChangeVolume v) (player a)) as [E1 E2];
      [done..|].
    split; cbn; try done; [by constructor|congruence|congruence].
  - destruct (step_player_station AudioPlayer.ClickPlayPause (player a)) as [E1 E2];
      [done..|].
    split; cbn; try done; [by constructor|congruence|congruence].
  - destruct (step_player_station (AudioPlayer.Fire h cb) (player a)) as [E1 E2];
      [done..|].
    split; cbn; try done; [by constructor|congruence|congruence].
Qed.

Lemma linked_acts p events a : linked p a → linked p (acts events a).
Proof.
  revert a. induction events as [|e es IH]; intros a H; [done|].
  cbn. by apply IH, linked_act.
Qed.

(** X19. The player only ever plays what the map offers: after the page
    has loaded, whatever markers are clicked and whatever the user and the
    audio library do, the player shows the page's current station, that
    station is one of the stations the assembler returned, and a live Howl
    was created for the stream URL of such a station. *)
Theorem player_plays_only_loaded_stations :
  ∀ (api : radioService.Query -> radioService.outcome (list RadioStation))
    (random : nat -> Q) (σ : radioService.Env) p σ' events,
    Home.loadStations api random Home.firstRender σ = (radioService.Normal p, σ') →
    fst (radioService.getRadioStationsWithGeoData api random (Some 500) σ)
    = radioService.Normal (Home.stations p)
    ∧ AudioPlayer.station (player (acts events (loaded p)))
      = Home.currentStation (page (acts events (loaded p)))
    ∧ (∀ st, AudioPlayer.station (player (acts events (loaded p))) = Some st →
             st ∈ Home.stations p)
    ∧ (∀ h, AudioPlayer.soundRef (player (acts events (loaded p))) = Some h →
            ∃ st v, st ∈ Home.stations p
                    ∧ AudioPlayer.New h (url st) v
                      ∈ AudioPlayer.howls (player (acts events (loaded p)))).
Proof.
  intros api random σ p σ' events Hload.
  destruct (HomeProofs.run_completes api random (Some 500) σ) as (out & σ'' & E).
  rewrite HomeProofs.loadStations_unfold, E in Hload. injection Hload as <- <-.
  set (p := {| Home.stations := _; Home.currentStation := _; Home.loading := _;
               Home.error := _ |}).
  assert (linked p (loaded p)) as H0.
  { split; [apply AudioPlayer.reachable_mount|done..]. }
  pose proof (linked_acts p events _ H0) as [Hr Hm Hs Hl Hc].
  split; [|split; [done|split]].
  - rewrite E. cbn. by destruct out.
  - intros st Hst. apply Hc. by rewrite <- Hs.
  - intros h Hh.
    destruct (AudioPlayerMore.sound_source _ (AudioPlayerMore.reachable_sound _ Hr) h Hh)
      as (st & v & Hst & Hin).
    exists st, v. split; [|done]. apply Hc. by rewrite <- Hs.
Qed.

Lemma player_plays_only_loaded_stations_witness :
  AudioPlayer.station
    (player (acts [MarkerClick 1; Callback 0 AudioPlayer.onplay; MarkerClick 0]
               (loaded {| Home.stations := [Samples.paris; Samples.tokyo];
                          Home.currentStation := None; Home.loading := false;
                          Home.error := None |})))
  = Some Samples.paris.
Proof.
  destruct (player_plays_only_loaded_stations
              (Samples.service [Samples.paris; Samples.tokyo]
                 (fun _ => radioService.Rejected "down"))
              Samples.half radioService.Env0
              {| Home.stations := [Samples.paris; Samples.tokyo];
                 Home.currentStation := None; Home.loading := false; Home.error := None |}
              (snd (Home.loadStations
                      (Samples.service [Samples.paris; Samples.tokyo]
                         (fun _ => radioService.Rejected "down"))
                      Samples.half Home.firstRender radioService.Env0))
              [MarkerClick 1; Callback 0 AudioPlayer.onplay; MarkerClick 0])
    as (_ & E & _).
  - vm_compute. reflexivity.
  - rewrite E. reflexivity.
Defined.

End AppProofs.
